(** * Entropy-Aware Kanban: the server store, the scorer, the corruption
    tick and the client's snapshot merge, embedded from the JavaScript
    sources [src/server/models/Task.js] and [src/client/src/App.js]
    (whose second half is the Express server). *)

From Stdlib Require Import ZArith QArith Qabs Qround Lia Lqa Bool Ascii Floats.
From stdpp Require Import gmap strings list fin_maps sorting.

Local Open Scope Z_scope.

(** ** JavaScript numbers

    A Number is either finite or one of the three special values.  Finite
    values are kept as exact rationals: the rounding of IEEE doubles is not
    part of this model, and there is no negative zero. *)

Inductive number : Type :=
  | Fin (q : Q)
  | PosInf
  | NegInf
  | NaN.

Definition num_of_Z (z : Z) : number := Fin (inject_Z z).

Definition Qsign_case {A : Type} (q : Q) (neg zero pos : A) : A :=
  match (q ?= 0)%Q with
  | Lt => neg
  | Eq => zero
  | Gt => pos
  end.

Definition num_neg (a : number) : number :=
  match a with
  | Fin q => Fin (- q)
  | PosInf => NegInf
  | NegInf => PosInf
  | NaN => NaN
  end.

Definition num_add (a b : number) : number :=
  match a, b with
  | NaN, _ | _, NaN => NaN
  | Fin x, Fin y => Fin (x + y)
  | PosInf, NegInf | NegInf, PosInf => NaN
  | PosInf, _ | _, PosInf => PosInf
  | NegInf, _ | _, NegInf => NegInf
  end.

Definition num_sub (a b : number) : number := num_add a (num_neg b).

Definition num_mul (a b : number) : number :=
  match a, b with
  | NaN, _ | _, NaN => NaN
  | Fin x, Fin y => Fin (x * y)
  | Fin x, PosInf | PosInf, Fin x => Qsign_case x NegInf NaN PosInf
  | Fin x, NegInf | NegInf, Fin x => Qsign_case x PosInf NaN NegInf
  | PosInf, PosInf | NegInf, NegInf => PosInf
  | PosInf, NegInf | NegInf, PosInf => NegInf
  end.

(** Division.  A zero divisor is read as +0. *)
Definition num_div (a b : number) : number :=
  match a, b with
  | NaN, _ | _, NaN => NaN
  | Fin x, Fin y =>
      if Qeq_bool y 0 then Qsign_case x NegInf NaN PosInf else Fin (x / y)
  | Fin _, (PosInf | NegInf) => Fin 0
  | PosInf, Fin y => Qsign_case y NegInf PosInf PosInf
  | NegInf, Fin y => Qsign_case y PosInf NegInf NegInf
  | (PosInf | NegInf), (PosInf | NegInf) => NaN
  end.

(** [a < b] and [a <= b]; every comparison with NaN is false. *)
Definition num_ltb (a b : number) : bool :=
  match a, b with
  | NaN, _ | _, NaN => false
  | Fin x, Fin y => negb (Qle_bool y x)
  | _, NegInf => false
  | NegInf, _ => true
  | PosInf, _ => false
  | Fin _, PosInf => true
  end.

Definition num_leb (a b : number) : bool :=
  match a, b with
  | NaN, _ | _, NaN => false
  | Fin x, Fin y => Qle_bool x y
  | NegInf, _ => true
  | _, NegInf => false
  | _, PosInf => true
  | PosInf, Fin _ => false
  end.

Definition num_gtb (a b : number) : bool := num_ltb b a.

(** [===] on two Numbers. *)
Definition num_eqb (a b : number) : bool :=
  match a, b with
  | Fin x, Fin y => Qeq_bool x y
  | PosInf, PosInf | NegInf, NegInf => true
  | _, _ => false
  end.

(** Truncation toward zero (ToIntegerOrInfinity on a finite value). *)
Definition Qtruncate (q : Q) : Z := Z.quot (Qnum q) (Zpos (Qden q)).

(** ** JavaScript values

    The values a task property or a JSON body property can hold.  A property
    read [o !! k] is an [option value]; [None] is [undefined].  A Date
    carries its time value in milliseconds, [None] for an invalid date.  Any
    other object (a JSON array or object) is kept as the string its
    conversion to a primitive yields; the code never looks inside one, and
    an object that has no such conversion is not among these values. *)

Inductive value : Type :=
  | VNull
  | VBool (b : bool)
  | VNum (n : number)
  | VStr (s : string)
  | VDate (tv : option Z)
  | VObject (s : string).

Abbreviation obj := (gmap string value).

(** ToBoolean. *)
Definition truthy (v : option value) : bool :=
  match v with
  | None | Some VNull => false
  | Some (VBool b) => b
  | Some (VNum (Fin q)) => negb (Qeq_bool q 0)
  | Some (VNum NaN) => false
  | Some (VNum _) => true
  | Some (VStr s) => negb (String.eqb s "")
  | Some (VDate _) | Some (VObject _) => true
  end.

(** [a === b].  Two objects are equal only when they are one reference; in
    every comparison of the program one side is a string literal, a route
    parameter or a property of a freshly parsed body, so an object operand
    never meets itself. *)
Definition strict_eq (a b : option value) : bool :=
  match a, b with
  | None, None => true
  | Some VNull, Some VNull => true
  | Some (VBool x), Some (VBool y) => Bool.eqb x y
  | Some (VNum x), Some (VNum y) => num_eqb x y
  | Some (VStr x), Some (VStr y) => String.eqb x y
  | _, _ => false
  end.

Definition time_number (tv : option Z) : number :=
  match tv with
  | Some z => num_of_Z z
  | None => NaN
  end.

(** TimeClip: the largest time value is 8.64e15 ms. *)
Definition MAX_TIME : Z := 8640000000000000.

Definition TimeClip (n : number) : option Z :=
  match n with
  | Fin q =>
      if Qle_bool (Qabs q) (inject_Z MAX_TIME) then Some (Qtruncate q) else None
  | _ => None
  end.

(** ** The client of [src/client/src/App.js], lines 17 and 43-52

    [pendingUpdates] is a JavaScript [Map]: entries in insertion order, keys
    compared by SameValueZero.  A key is whatever [task.id] read, [None] for
    [undefined]. *)

Definition same_value_zero (a b : option value) : bool :=
  match a, b with
  | Some (VNum NaN), Some (VNum NaN) => true
  | _, _ => strict_eq a b
  end.

Definition Map : Type := list (option value * obj).

Definition Map_has (m : Map) (k : option value) : bool :=
  existsb (fun entry => same_value_zero entry.1 k) m.

Definition Map_get (m : Map) (k : option value) : option obj :=
  snd <$> List.find (fun entry => same_value_zero entry.1 k) m.

Fixpoint Map_set (m : Map) (k : option value) (v : obj) : Map :=
  match m with
  | [] => [(k, v)]
  | entry :: rest =>
      if same_value_zero entry.1 k then (entry.1, v) :: rest
      else entry :: Map_set rest k v
  end.

Fixpoint Map_delete (m : Map) (k : option value) : Map :=
  match m with
  | [] => []
  | entry :: rest =>
      if same_value_zero entry.1 k then rest
      else entry :: Map_delete rest k
  end.

(** The [tasks_updated] handler: the local list it sets.  [has] holds
    exactly when [get] finds an entry, and stored shadows are objects. *)
Definition on_tasks_updated (pendingUpdates : Map) (updatedTasks : list obj)
  : list obj :=
  map (fun serverTask =>
         if Map_has pendingUpdates (serverTask !! "id") then
           default serverTask (Map_get pendingUpdates (serverTask !! "id"))
         else serverTask)
      updatedTasks.

(** A [Map] holds at most one entry for a key. *)
Inductive unique_keys : Map -> Prop :=
  | unique_nil : unique_keys []
  | unique_cons (k : option value) (v : obj) (m : Map) :
      Forall (fun entry => same_value_zero k entry.1 = false) m ->
      unique_keys m ->
      unique_keys ((k, v) :: m).

(** ** The engine *)

(** What the engine supplies and the program only calls: the numeric
    reading of a string, [Date.parse], the string conversions of a Number
    and of a Date, and [sort] under the comparator
    [() => Math.random() - 0.5], which ignores what it compares, so that the
    order it leaves depends on the engine's algorithm and on the draws. *)
Class Host : Type := {
  StringToNumber : string -> number;
  Date_parse : string -> option Z;
  NumberToString : number -> string;
  DateToString : option Z -> string;
  sort_by_random : (nat -> Q) -> list ascii -> list ascii
}.

(** A small engine to run the definitions on concrete inputs: it reads no
    string as a number or a date, prints 0 and 1/2 as JavaScript does and
    any other finite number as "1", and its [sort] reverses. *)
Definition sample_host : Host := {|
  StringToNumber := fun _ => NaN;
  Date_parse := fun _ => None;
  NumberToString := fun n =>
    match n with
    | Fin q =>
        if Qeq_bool q 0 then "0" else if Qeq_bool q (1 # 2) then "0.5" else "1"
    | _ => "NaN"
    end;
  DateToString := fun _ => "Invalid Date";
  sort_by_random := fun _ cs => rev cs
|}.

Section Server.

Context `{host : Host}.

(** ToNumber. *)
Definition ToNumber (v : option value) : number :=
  match v with
  | None => NaN
  | Some VNull => Fin 0
  | Some (VBool b) => if b then Fin 1 else Fin 0
  | Some (VNum n) => n
  | Some (VStr s) => StringToNumber s
  | Some (VDate tv) => time_number tv
  | Some (VObject s) => StringToNumber s
  end.

(** The time value of [new Date(v)]. *)
Definition new_Date (v : option value) : option Z :=
  match v with
  | Some (VDate tv) => tv
  | Some (VStr s) | Some (VObject s) => Date_parse s
  | other => TimeClip (ToNumber other)
  end.

(** [new Date(v).getTime()]. *)
Definition getTime (v : option value) : number := time_number (new_Date v).

(** [v + n] for a Number [n]: concatenation when [v] converts to a string
    primitive (a Date converts to its string form), addition otherwise. *)
Definition js_add_num (v : option value) (n : number) : value :=
  match v with
  | Some (VStr s) | Some (VObject s) => VStr (s +:+ NumberToString n)
  | Some (VDate tv) => VStr (DateToString tv +:+ NumberToString n)
  | other => VNum (num_add (ToNumber other) n)
  end.

(** ** [src/server/models/Task.js]

    The constructor reads the clock four times and draws two random
    numbers; they are its inputs here, in the order the statements take
    them.  [Math.random()] yields a Number in [0, 1). *)

Record ctor_env : Type := {
  now_id : Z;          (* Date.now() in the id *)
  rand_id : Q;         (* Math.random() in the id *)
  now_created : Z;     (* new Date() of created_at *)
  now_updated : Z;     (* new Date() of updated_at *)
  rand_volatility : Q; (* Math.random() of volatility_factor *)
  now_deadline : Z     (* Date.now() of deadline *)
}.

Definition SEVEN_DAYS : Z := 7 * 24 * 60 * 60 * 1000.

Definition Task (e : ctor_env) (title description : value) : obj :=
  let this : obj := ∅ in
  let this := <["id" :=
    VStr (NumberToString (num_of_Z (now_id e))
          +:+ NumberToString (Fin (rand_id e)))]> this in
  let this := <["title" := title]> this in
  let this := <["description" := description]> this in
  let this := <["status" := VStr "Todo"]> this in
  let this := <["created_at" := VDate (Some (now_created e))]> this in
  let this := <["updated_at" := VDate (Some (now_updated e))]> this in
  let this := <["volatility_factor" :=
    VNum (num_add (num_mul (Fin (rand_volatility e)) (Fin (9 # 10)))
                  (Fin (1 # 10)))]> this in
  let this := <["deadline" :=
    VDate (TimeClip (num_add (num_of_Z (now_deadline e))
                             (num_of_Z SEVEN_DAYS)))]> this in
  <["version" := VNum (Fin 0)]> this.

(** ** The server of [src/client/src/App.js]

    The store is the array [tasks]; a handler takes it and returns the
    array it leaves behind together with the response.  A task found in
    the array is the array's own object, so it is kept with its index and
    written back there. *)

Inductive payload : Type :=
  | JError (error : string)
  | JTask (task : obj)
  | JConflict (error : string) (current_version : option value)
              (current_task : obj)
  | JNone.

Record response : Type := { status : Z; json : payload }.

(** [arr.find(p)], with the position of what it found. *)
Fixpoint find_from {A : Type} (p : A -> bool) (l : list A) (i : nat)
  : option (nat * A) :=
  match l with
  | [] => None
  | x :: rest => if p x then Some (i, x) else find_from p rest (S i)
  end.

Definition array_find {A : Type} (p : A -> bool) (l : list A)
  : option (nat * A) := find_from p l 0%nat.

Definition has_id (id : string) (t : obj) : bool :=
  strict_eq (t !! "id") (Some (VStr id)).

(** Lines 367-375. *)
Definition calculatePriorityScore (now : Z) (task : obj) : number :=
  let timeSinceUpdate :=
    num_sub (num_of_Z now) (getTime (task !! "updated_at")) in
  let timeUntilDeadline :=
    num_sub (getTime (task !! "deadline")) (num_of_Z now) in
  if num_leb timeUntilDeadline (Fin 0) then PosInf
  else num_div (num_mul timeSinceUpdate
                        (ToNumber (task !! "volatility_factor")))
               timeUntilDeadline.

(** [a || b] with a defined right operand. *)
Definition js_or (a : option value) (b : value) : value :=
  match a with
  | Some v => if truthy a then v else b
  | None => b
  end.

(** [app.post('/tasks')], lines 411-423.  A truthy title is a defined
    value, so the last branch is never taken. *)
Definition post_tasks (e : ctor_env) (tasks : list obj) (body : obj)
  : list obj * response :=
  let title := body !! "title" in
  let description := body !! "description" in
  if negb (truthy title) then
    (tasks, {| status := 400; json := JError "Title is required" |})
  else
    match title with
    | Some title =>
        let task := Task e title (js_or description (VStr "")) in
        (tasks ++ [task], {| status := 201; json := JTask task |})
    | None => (tasks, {| status := 400; json := JError "Title is required" |})
    end.

(** [clientVersion !== undefined && clientVersion !== task.version]. *)
Definition version_conflict (body task : obj) : bool :=
  let clientVersion := body !! "version" in
  negb (strict_eq clientVersion None)
  && negb (strict_eq clientVersion (task !! "version")).

(** The three statements of lines 444-446 on the found task. *)
Definition apply_patch (now : Z) (body task : obj) : obj :=
  let task := body ∪ task in                            (* Object.assign *)
  let task := <["updated_at" := VDate (Some now)]> task in
  <["version" := js_add_num (task !! "version") (Fin 1)]> task.

(** [app.patch('/tasks/:id')], lines 425-452. *)
Definition patch_task (now : Z) (tasks : list obj) (id : string) (body : obj)
  : list obj * response :=
  match array_find (has_id id) tasks with
  | None => (tasks, {| status := 404; json := JError "Task not found" |})
  | Some (i, task) =>
      if version_conflict body task then
        (tasks, {| status := 409;
                   json := JConflict "Version conflict"
                                     (task !! "version") task |})
      else
        let task' := apply_patch now body task in
        (<[i := task']> tasks, {| status := 200; json := JTask task' |})
  end.

(** [app.delete('/tasks/:id')], lines 454-464. *)
Definition delete_task (tasks : list obj) (id : string)
  : list obj * response :=
  match array_find (has_id id) tasks with          (* findIndex *)
  | None => (tasks, {| status := 404; json := JError "Task not found" |})
  | Some (index, _) =>
      (delete index tasks,                        (* splice(index, 1) *)
       {| status := 204; json := JNone |})
  end.

(** ** The corruption engine, lines 467-501 *)

Definition STALE_THRESHOLD : Z := 30 * 1000.

(** The callback of [tasks.filter]. *)
Definition is_stale (now : Z) (task : obj) : bool :=
  let timeSinceUpdate :=
    num_sub (num_of_Z now) (getTime (task !! "updated_at")) in
  strict_eq (task !! "status") (Some (VStr "Doing"))
  && num_gtb timeSinceUpdate (num_of_Z STALE_THRESHOLD).

(** [arr.filter(p)]; each kept object comes with its position in [arr],
    since the filtered array holds the store's own objects. *)
Fixpoint filter_from {A : Type} (p : A -> bool) (l : list A) (i : nat)
  : list (nat * A) :=
  match l with
  | [] => []
  | x :: rest =>
      if p x then (i, x) :: filter_from p rest (S i)
      else filter_from p rest (S i)
  end.

Definition array_filter {A : Type} (p : A -> bool) (l : list A)
  : list (nat * A) := filter_from p l 0%nat.

(** [arr[Math.floor(r * arr.length)]]; [undefined] out of range. *)
Definition random_element {A : Type} (r : Q) (arr : list A) : option A :=
  let k := Qfloor (r * inject_Z (Z.of_nat (length arr))) in
  if (k <? 0)%Z then None else arr !! Z.to_nat k.

(** The string operators.  A string is its sequence of characters; the
    glyphs outside ASCII are written as their UTF-8 bytes. *)

Definition chars (s : string) : list ascii := String.list_ascii_of_string s.
Definition join_chars (l : list string) : string := String.concat "" l.

Definition is_vowel (c : ascii) : bool :=
  existsb (Ascii.eqb c) (chars "aeiouAEIOU").

Definition corrupt_shuffle (draws : nat -> Q) (desc : string) : string :=
  String.string_of_list_ascii (sort_by_random draws (chars desc)).

Definition corrupt_vowels (desc : string) : string :=
  join_chars (map (fun c => if is_vowel c then "█"
                            else String c EmptyString) (chars desc)).

(** One draw for each character, in order. *)
Definition corrupt_mask (draws : nat -> Q) (desc : string) : string :=
  String.string_of_list_ascii
    (imap (fun k c =>
             if num_gtb (Fin (draws k)) (Fin (7 # 10)) then "?"%char else c)
          (chars desc)).

Definition corrupt_truncate (desc : string) : string :=
  "⚠️ CORRUPTED: " +:+ String.substring 0 20 desc +:+ "...".

(** [desc.split(' ')]. *)
Fixpoint split_spaces (cs : list ascii) (word : string) : list string :=
  match cs with
  | [] => [word]
  | c :: rest =>
      if Ascii.eqb c " " then word :: split_spaces rest ""
      else split_spaces rest (word +:+ String c EmptyString)
  end.

Definition corrupt_words (desc : string) : string :=
  String.concat " " (rev (split_spaces (chars desc) "")).

Definition corruptions (draws : nat -> Q) : list (string -> string) :=
  [ corrupt_shuffle draws;
    corrupt_vowels;
    corrupt_mask draws;
    corrupt_truncate;
    corrupt_words ].

(** What one run of [corruptStaleTasks] takes from outside: the clock and
    the random numbers, in the order the statements draw them. *)
Record tick_env : Type := {
  tick_now : Z;
  rand_task : Q;
  rand_method : Q;
  rand_op : nat -> Q
}.

(** The run either returns, leaving a store and having broadcast or not,
    or throws a TypeError. *)
Inductive tick_result : Type :=
  | Returned (tasks : list obj) (broadcast : bool)
  | Threw.

Definition staleTasks (e : tick_env) (tasks : list obj) : list (nat * obj) :=
  array_filter (is_stale (tick_now e)) tasks.

Definition corruptStaleTasks (e : tick_env) (tasks : list obj) : tick_result :=
  let stale := staleTasks e tasks in
  if (length stale =? 0)%nat then Returned tasks false
  else
    match random_element (rand_task e) stale with
    | None => Threw                       (* undefined.description *)
    | Some (i, randomTask) =>
        let corruptionMethod :=
          random_element (rand_method e) (corruptions (rand_op e)) in
        if truthy (randomTask !! "description") then
          match corruptionMethod, randomTask !! "description" with
          | Some method, Some (VStr desc) =>
              let randomTask :=
                <["description" := VStr (method desc)]> randomTask in
              let randomTask :=
                <["corrupted" := VBool true]> randomTask in
              Returned (<[i := randomTask]> tasks) true
          | _, _ => Threw                 (* not a function *)
          end
        else Returned tasks false
    end.

(** ** What the store can become

    One step is one request handled or one corruption run that returned;
    a run that threw ends the process. *)

Inductive server_step : list obj -> list obj -> Prop :=
  | step_post e body tasks :
      server_step tasks (post_tasks e tasks body).1
  | step_patch now id body tasks :
      server_step tasks (patch_task now tasks id body).1
  | step_delete id tasks :
      server_step tasks (delete_task tasks id).1
  | step_tick e tasks tasks' broadcast :
      corruptStaleTasks e tasks = Returned tasks' broadcast ->
      server_step tasks tasks'.

(** The store starts as the empty array (line 364). *)
Definition reachable (tasks : list obj) : Prop := rtc server_step [] tasks.


End Server.

(** The volatility expression of the constructor on IEEE doubles, to run it
    at the two ends of the range of [Math.random()]. *)
#[warnings="-inexact-float"]
Definition volatility_double (r : float) : float := (r * 0.9 + 0.1)%float.

(** The largest double below 1. *)
Definition largest_draw : float := 0x1.fffffffffffffp-1%float.

(** ** Concrete runs

    One task created at clock 0 with both draws 1/2, then moved to Doing
    five seconds later, or only after its deadline has passed. *)

Definition sample_env : ctor_env := {|
  now_id := 0; rand_id := 1 # 2;
  now_created := 0; now_updated := 0;
  rand_volatility := 1 # 2; now_deadline := 0
|}.

Definition sample_body : obj :=
  {[ "title" := VStr "A"; "description" := VStr "hello world" ]}.

Definition move_to_doing : obj :=
  {[ "status" := VStr "Doing"; "version" := VNum (Fin 0) ]}.

Definition store_created : list obj :=
  (post_tasks (host := sample_host) sample_env [] sample_body).1.

(** The id of the created task: "0" for the clock, "0.5" for the draw. *)
Definition sample_id : string := "00.5".

Definition store_doing : list obj :=
  (patch_task (host := sample_host) 5000 store_created sample_id
              move_to_doing).1.


(** A body that names the four properties set at creation. *)
Definition rewrite_creation_fields : obj :=
  {[ "id" := VStr "other"; "created_at" := VNull; "deadline" := VStr "never";
     "volatility_factor" := VNum (Fin 5); "version" := VNum (Fin 0) ]}.

(** The properties the constructor sets once. *)
Definition creation_fields : list string :=
  ["id"; "created_at"; "deadline"; "volatility_factor"].

(** Bodies whose title is three spaces, and the number 0. *)
Definition whitespace_title : obj := {[ "title" := VStr "   " ]}.
Definition zero_title : obj := {[ "title" := VNum (Fin 0) ]}.


(** A corruption run 40 seconds after creation: both index draws and every
    later draw as given. *)
Definition sample_tick : tick_env := {|
  tick_now := 40000; rand_task := 1 # 3; rand_method := 3 # 5;
  rand_op := fun _ => 1 # 2
|}.

(** A server task of id "t1", and a local edit of it that waits for its
    answer. *)
Definition server_t1 : obj :=
  {[ "id" := VStr "t1"; "status" := VStr "Todo"; "version" := VNum (Fin 0) ]}.
Definition server_t2 : obj :=
  {[ "id" := VStr "t2"; "status" := VStr "Todo"; "version" := VNum (Fin 3) ]}.
Definition optimistic_t1 : obj :=
  {[ "id" := VStr "t1"; "status" := VStr "Doing"; "version" := VNum (Fin 0) ]}.
Definition pending_t1 : Map := Map_set [] (Some (VStr "t1")) optimistic_t1.

(** * Facts *)

(** ** Numbers *)

Lemma Qle_bool_inject_Z (a b : Z) :
  Qle_bool (inject_Z a) (inject_Z b) = (a <=? b)%Z.
Proof.
  apply eq_true_iff_eq.
  rewrite Qle_bool_iff, <- Zle_Qle. symmetry. apply Z.leb_le.
Qed.

Lemma num_sub_of_Z (a b : Z) :
  num_sub (num_of_Z a) (num_of_Z b) = Fin (inject_Z a + - inject_Z b).
Proof. reflexivity. Qed.

Lemma Qle_bool_diff_0 (a b : Z) :
  Qle_bool (inject_Z a + - inject_Z b) 0 = (a <=? b)%Z.
Proof.
  apply eq_true_iff_eq.
  rewrite Qle_bool_iff, Z.leb_le, (Zle_Qle a b). lra.
Qed.

Lemma Qlt_diff_gt (a b c : Z) :
  negb (Qle_bool (inject_Z a + - inject_Z b) (inject_Z c)) = (c <? a - b)%Z.
Proof.
  rewrite <- inject_Z_opp, <- inject_Z_plus, Qle_bool_inject_Z.
  rewrite Z.ltb_antisym. f_equal.
Qed.


(** ** The scorer *)

Lemma score_before_deadline `{Host} (task : obj) (u d : Z) (v : Q) (now : Z) :
  getTime (task !! "updated_at") = num_of_Z u ->
  getTime (task !! "deadline") = num_of_Z d ->
  ToNumber (task !! "volatility_factor") = Fin v ->
  (now < d)%Z ->
  calculatePriorityScore now task =
    Fin ((inject_Z now + - inject_Z u) * v / (inject_Z d + - inject_Z now)).
Proof.
  intros Hu Hd Hv Hlt. unfold calculatePriorityScore.
  rewrite Hu, Hd, Hv, !num_sub_of_Z.
  cbn -[Qle_bool Qeq_bool Qplus Qopp Qmult Qdiv inject_Z].
  rewrite Qle_bool_diff_0.
  destruct (Z.leb_spec d now) as [Hle|_]; [lia|].
  destruct (Qeq_bool (inject_Z d + - inject_Z now) 0) eqn:Hz; [|reflexivity].
  apply Qeq_bool_iff in Hz. rewrite (Zlt_Qlt now d) in Hlt. lra.
Qed.







(** ** Arrays and objects *)

Lemma find_from_Some {A : Type} (p : A -> bool) (l : list A) (i j : nat) (x : A) :
  find_from p l i = Some (j, x) ->
  (i <= j)%nat /\ l !! (j - i)%nat = Some x /\ p x = true
  /\ forall (k : nat) (y : A), (k < j - i)%nat -> l !! k = Some y -> p y = false.
Proof.
  revert i. induction l as [|a l IH]; intros i Hfind; [discriminate|].
  cbn in Hfind. destruct (p a) eqn:Hpa.
  - injection Hfind as <- <-. replace (i - i)%nat with 0%nat by lia.
    repeat split; [lia | done | intros k y Hk; lia].
  - apply IH in Hfind as (Hle & Hlook & Hpx & Hbefore).
    replace (j - i)%nat with (S (j - S i)) by lia.
    repeat split; [lia | done | done |].
    intros [|k] y Hk Hy; [by injection Hy as <- |].
    apply (Hbefore k); [lia | done].
Qed.

Lemma array_find_Some {A : Type} (p : A -> bool) (l : list A) (j : nat) (x : A) :
  array_find p l = Some (j, x) ->
  l !! j = Some x /\ p x = true
  /\ forall (k : nat) (y : A), (k < j)%nat -> l !! k = Some y -> p y = false.
Proof.
  intros Hfind. apply find_from_Some in Hfind as (_ & Hlook & Hp & Hbefore).
  by rewrite Nat.sub_0_r in *.
Qed.

(** [Object.assign(task, body)]: a property of the body wins. *)
Lemma lookup_assign (body task : obj) (k : string) :
  (body ∪ task) !! k =
    match body !! k with
    | Some v => Some v
    | None => task !! k
    end.
Proof. rewrite lookup_union. by destruct (body !! k), (task !! k). Qed.

Lemma strict_eq_finite (v : value) (q : Q) :
  strict_eq (Some v) (Some (VNum (Fin q))) = true ->
  exists q' : Q, v = VNum (Fin q') /\ (q' == q)%Q.
Proof.
  destruct v as [| |[q'| | |]| | |]; cbn; try discriminate.
  intros Heq%Qeq_bool_iff. by exists q'.
Qed.

Lemma strict_eq_undefined (v : value) : strict_eq (Some v) None = false.
Proof. by destruct v. Qed.

Section PatchFacts.

Context `{host : Host}.

Lemma apply_patch_updated_at (now : Z) (body task : obj) :
  apply_patch now body task !! "updated_at" = Some (VDate (Some now)).
Proof. unfold apply_patch. by rewrite lookup_insert_ne, lookup_insert_eq. Qed.

Lemma apply_patch_version (now : Z) (body task : obj) :
  apply_patch now body task !! "version" =
    Some (js_add_num (match body !! "version" with
                      | Some v => Some v
                      | None => task !! "version"
                      end) (Fin 1)).
Proof.
  unfold apply_patch.
  by rewrite lookup_insert_eq, lookup_insert_ne, lookup_assign.
Qed.

Lemma apply_patch_other (now : Z) (body task : obj) (k : string) :
  k <> "updated_at" -> k <> "version" ->
  apply_patch now body task !! k =
    match body !! k with
    | Some v => Some v
    | None => task !! k
    end.
Proof.
  intros Hu Hv. unfold apply_patch.
  by rewrite !lookup_insert_ne, lookup_assign.
Qed.

(** The guard lets a request through exactly when it names no version or
    names the stored one. *)
Lemma version_conflict_false (body task : obj) :
  version_conflict body task = false <->
  forall v : value,
    body !! "version" = Some v -> strict_eq (Some v) (task !! "version") = true.
Proof.
  unfold version_conflict. destruct (body !! "version") as [cv|].
  - rewrite strict_eq_undefined, andb_true_l, negb_false_iff.
    split; [by intros ? ? [= <-] | eauto].
  - split; [done | reflexivity].
Qed.

Lemma version_conflict_true (body task : obj) :
  version_conflict body task = true <->
  exists v : value,
    body !! "version" = Some v /\ strict_eq (Some v) (task !! "version") = false.
Proof.
  unfold version_conflict. destruct (body !! "version") as [cv|].
  - rewrite strict_eq_undefined, andb_true_l, negb_true_iff.
    split; [eauto | by intros (? & [= <-] & ?)].
  - split; [done | by intros (? & ? & _)].
Qed.

End PatchFacts.

Lemma filter_from_elem {A : Type} (p : A -> bool) (l : list A) (i j : nat) (x : A) :
  (j, x) ∈ filter_from p l i <->
  (i <= j)%nat /\ l !! (j - i)%nat = Some x /\ p x = true.
Proof.
  revert i. induction l as [|a l IH]; intros i; cbn.
  - rewrite elem_of_nil. split; [done | by intros (_ & ? & _)].
  - assert ((j, x) ∈ filter_from p l (S i) <->
            (i < j)%nat /\ (a :: l) !! (j - i)%nat = Some x /\ p x = true) as Hrest.
    { rewrite IH. split.
      - intros (Hle & Hlook & Hp). split; [lia|].
        by replace (j - i)%nat with (S (j - S i)) by lia.
      - intros (Hlt & Hlook & Hp). split; [lia|].
        by replace (j - i)%nat with (S (j - S i)) in Hlook by lia. }
    destruct (p a) eqn:Hpa.
    + rewrite elem_of_cons, Hrest. split.
      * intros [[= -> ->] | (Hlt & Hlook & Hp)].
        -- by rewrite Nat.sub_diag.
        -- split; [lia | done].
      * intros (Hle & Hlook & Hp).
        destruct (decide (j = i)) as [->|Hne].
        -- left. rewrite Nat.sub_diag in Hlook. by injection Hlook as ->.
        -- right. split; [lia | done].
    + rewrite Hrest. split.
      * intros (Hlt & Hlook & Hp). split; [lia | done].
      * intros (Hle & Hlook & Hp).
        destruct (decide (j = i)) as [->|Hne].
        -- rewrite Nat.sub_diag in Hlook. injection Hlook as ->. congruence.
        -- split; [lia | done].
Qed.

Lemma array_filter_elem {A : Type} (p : A -> bool) (l : list A) (j : nat) (x : A) :
  (j, x) ∈ array_filter p l <-> l !! j = Some x /\ p x = true.
Proof.
  unfold array_filter. rewrite filter_from_elem, Nat.sub_0_r.
  split; [by intros (_ & ? & ?) | intros [? ?]; split; [lia | done]].
Qed.

Lemma random_element_elem {A : Type} (r : Q) (arr : list A) (x : A) :
  random_element r arr = Some x -> x ∈ arr.
Proof.
  unfold random_element. case_match; [done|].
  intros Hlook. by eapply list_elem_of_lookup_2.
Qed.

(** A draw in [0, 1) always lands inside a non-empty array. *)
Lemma random_element_in_range {A : Type} (r : Q) (arr : list A) :
  (0 <= r)%Q -> (r < 1)%Q -> arr <> [] -> is_Some (random_element r arr).
Proof.
  intros H0 H1 Hne. unfold random_element.
  set (n := inject_Z (Z.of_nat (length arr))).
  assert (0 < n)%Q as Hn.
  { unfold n. rewrite <- (Zlt_Qlt 0). destruct arr; [done | cbn; lia]. }
  assert (0 <= Qfloor (r * n))%Z as Hlo.
  { change 0%Z with (Qfloor (inject_Z 0)). apply Qfloor_resp_le.
    change (inject_Z 0) with 0%Q. by apply Qmult_le_0_compat; [|apply Qlt_le_weak]. }
  assert (Qfloor (r * n) < Z.of_nat (length arr))%Z as Hhi.
  { rewrite Zlt_Qlt. eapply Qle_lt_trans; [apply Qfloor_le|]. fold n. nra. }
  destruct (Z.ltb_spec (Qfloor (r * n)) 0) as [?|_]; [lia|].
  apply lookup_lt_is_Some. lia.
Qed.

Section ServerFacts.

Context `{host : Host}.

(** ** The constructor *)

Lemma Task_fields (e : ctor_env) (title description : value) :
  let t := Task e title description in
  t !! "title" = Some title
  /\ t !! "description" = Some description
  /\ t !! "status" = Some (VStr "Todo")
  /\ t !! "created_at" = Some (VDate (Some (now_created e)))
  /\ t !! "updated_at" = Some (VDate (Some (now_updated e)))
  /\ t !! "version" = Some (VNum (Fin 0))
  /\ t !! "priority_score" = None
  /\ t !! "corrupted" = None.
Proof. cbv zeta. unfold Task. by simplify_map_eq. Qed.


(** ** What a run of the corruption engine can have done *)

Lemma corruptStaleTasks_Returned (e : tick_env) (tasks tasks' : list obj) (b : bool) :
  corruptStaleTasks e tasks = Returned tasks' b ->
  (b = false /\ tasks' = tasks)
  \/ (b = true
      /\ exists (i : nat) (task : obj) (method : string -> string) (desc : string),
           random_element (rand_task e) (staleTasks e tasks) = Some (i, task)
           /\ random_element (rand_method e) (corruptions (rand_op e)) = Some method
           /\ task !! "description" = Some (VStr desc)
           /\ desc <> ""
           /\ tasks' =
                <[i := <["corrupted" := VBool true]>
                         (<["description" := VStr (method desc)]> task)]> tasks).
Proof.
  unfold corruptStaleTasks.
  destruct (length (staleTasks e tasks) =? 0)%nat; [intros [= <- <-]; by left|].
  destruct (random_element (rand_task e) (staleTasks e tasks))
    as [[i task]|] eqn:Hpick; [|done].
  destruct (truthy (task !! "description")) eqn:Htruthy;
    [|intros [= <- <-]; by left].
  destruct (random_element (rand_method e) (corruptions (rand_op e)))
    as [method|] eqn:Hmethod; [|done].
  destruct (task !! "description") as [[| | | desc | |]|] eqn:Hdesc; try done.
  intros [= <- <-]. right. split; [done|].
  exists i, task, method, desc. repeat split; try done.
  intros ->. by cbn in Htruthy.
Qed.

(** The picked task is one of the store's, at its own index, and stale. *)
Lemma picked_is_stale (e : tick_env) (tasks : list obj) (i : nat) (task : obj) :
  random_element (rand_task e) (staleTasks e tasks) = Some (i, task) ->
  tasks !! i = Some task /\ is_stale (tick_now e) task = true.
Proof.
  intros Hpick%random_element_elem. by apply array_filter_elem in Hpick.
Qed.

Lemma is_stale_inv (now : Z) (task : obj) :
  is_stale now task = true <->
  task !! "status" = Some (VStr "Doing")
  /\ exists u : Z,
       getTime (task !! "updated_at") = num_of_Z u
       /\ (now - u > STALE_THRESHOLD)%Z.
Proof.
  unfold is_stale. rewrite andb_true_iff.
  assert (strict_eq (task !! "status") (Some (VStr "Doing")) = true
          <-> task !! "status" = Some (VStr "Doing")) as ->.
  { destruct (task !! "status") as [[| | | s | |]|]; cbn; try by split.
    rewrite String.eqb_eq. split; [by intros -> | by intros [= ->]]. }
  assert (num_gtb (num_sub (num_of_Z now) (getTime (task !! "updated_at")))
                  (num_of_Z STALE_THRESHOLD) = true
          <-> exists u : Z,
                getTime (task !! "updated_at") = num_of_Z u
                /\ (now - u > STALE_THRESHOLD)%Z) as ->; [|done].
  unfold getTime. destruct (new_Date (task !! "updated_at")) as [u|].
  - change (negb (Qle_bool (inject_Z now + - inject_Z u)
                           (inject_Z STALE_THRESHOLD)) = true
            <-> exists u0 : Z,
                  num_of_Z u = num_of_Z u0 /\ (now - u0 > STALE_THRESHOLD)%Z).
    rewrite Qlt_diff_gt, Z.ltb_lt. split.
    + intros Hlt. exists u. split; [done | lia].
    + intros (u0 & Heq & Hgt). injection Heq as Heq. subst u0. lia.
  - split; [done | by intros (? & ? & _)].
Qed.

End ServerFacts.

(** ** The store's invariant *)

Section StoreFacts.

Context `{host : Host}.




End StoreFacts.

(** ** PATCH *)





(** C4 as stated fails.  [Object.assign] copies every property of the body:
    a PATCH naming id, created_at, deadline and volatility_factor is
    accepted with 200 and replaces all four on the stored task. *)
Lemma patch_rewrites_creation_fields :
  exists task task' : obj,
    reachable (host := sample_host) store_created
    /\ store_created !! 0%nat = Some task
    /\ patch_task (host := sample_host) 5000 store_created sample_id
                  rewrite_creation_fields
       = (<[0%nat := task']> store_created,
          {| status := 200; json := JTask task' |})
    /\ task !! "id" = Some (VStr sample_id)
    /\ task' !! "id" = Some (VStr "other")
    /\ task !! "created_at" = Some (VDate (Some 0))
    /\ task' !! "created_at" = Some VNull
    /\ task !! "deadline" = Some (VDate (Some 604800000))
    /\ task' !! "deadline" = Some (VStr "never")
    /\ task !! "volatility_factor" = Some (VNum (Fin (110 # 200)))
    /\ task' !! "volatility_factor" = Some (VNum (Fin 5)).
Proof.
  do 2 eexists. split; [apply rtc_once, (step_post sample_env sample_body)|].
  split; [reflexivity|]. split; [reflexivity|].
  repeat split; reflexivity.
Qed.

(** C4, as amended.  An accepted PATCH leaves each of id, created_at,
    deadline and volatility_factor of the patched task as it was when the
    body has no property of that name, and sets it to the body's value when
    it has one; a corruption run that returns leaves these four properties
    of every task as they were; POST leaves every stored task in place and
    DELETE only removes a task. *)
Theorem creation_fields_change_only_by_patch_body `{Host} (k : string) :
  k ∈ creation_fields ->
  (forall (now : Z) (tasks : list obj) (id : string) (body : obj)
          (i : nat) (task : obj),
      array_find (has_id id) tasks = Some (i, task) ->
      (forall v : value,
          body !! "version" = Some v ->
          strict_eq (Some v) (task !! "version") = true) ->
      exists task' : obj,
        patch_task now tasks id body =
          (<[i := task']> tasks, {| status := 200; json := JTask task' |})
        /\ task' !! k = match body !! k with
                        | Some v => Some v
                        | None => task !! k
                        end)
  /\ (forall (e : tick_env) (tasks tasks' : list obj) (broadcast : bool)
             (i : nat) (task : obj),
        corruptStaleTasks e tasks = Returned tasks' broadcast ->
        tasks !! i = Some task ->
        exists task' : obj, tasks' !! i = Some task' /\ task' !! k = task !! k)
  /\ (forall (e : ctor_env) (tasks : list obj) (body : obj) (i : nat) (task : obj),
        tasks !! i = Some task ->
        (post_tasks e tasks body).1 !! i = Some task)
  /\ (forall (tasks : list obj) (id : string) (task : obj),
        task ∈ (delete_task tasks id).1 -> task ∈ tasks).
Proof.
  intros Hk.
  assert (k <> "updated_at" /\ k <> "version"
          /\ k <> "description" /\ k <> "corrupted") as (Hu & Hv & Hd & Hc).
  { unfold creation_fields in Hk. rewrite !elem_of_cons, elem_of_nil in Hk.
    by destruct Hk as [->|[->|[->|[->|[]]]]]. }
  repeat split.
  - intros now tasks id body i task Hfind Haccepted.
    exists (apply_patch now body task). unfold patch_task. rewrite Hfind.
    apply version_conflict_false in Haccepted as ->.
    split; [done | by apply apply_patch_other].
  - intros e tasks tasks' b i task Hrun Hlook.
    apply corruptStaleTasks_Returned in Hrun
      as [[_ ->]|(_ & j & picked & method & desc & Hpick & _ & _ & _ & ->)];
      [by exists task|].
    apply picked_is_stale in Hpick as [Hpicked _].
    destruct (decide (i = j)) as [->|Hne].
    + rewrite Hpicked in Hlook. injection Hlook as ->.
      eexists. split; [apply list_lookup_insert_eq; by eapply lookup_lt_Some|].
      by rewrite !lookup_insert_ne.
    + exists task. by rewrite list_lookup_insert_ne.
  - intros e tasks body i task Hlook. unfold post_tasks.
    destruct (truthy (body !! "title")); cbn; [|done].
    destruct (body !! "title"); cbn; [|done].
    by apply lookup_app_l_Some.
  - intros tasks id task. unfold delete_task.
    destruct (array_find (has_id id) tasks) as [[index found]|]; [|done].
    apply sublist_subseteq, sublist_delete.
Qed.

Lemma creation_fields_change_only_by_patch_body_witness :
  exists task' : obj,
    patch_task (host := sample_host) 5000 store_created sample_id move_to_doing
    = (<[0%nat := task']> store_created,
       {| status := 200; json := JTask task' |})
    /\ task' !! "deadline" = Some (VDate (Some 604800000)).
Proof.
  assert ("deadline" ∈ creation_fields) as Hk
    by (unfold creation_fields; rewrite !elem_of_cons; tauto).
  destruct (creation_fields_change_only_by_patch_body (H := sample_host)
              "deadline" Hk) as (Hpatch & _).
  destruct (Hpatch 5000 store_created sample_id move_to_doing 0%nat
              (Task (host := sample_host) sample_env
                    (VStr "A") (VStr "hello world")))
    as (task' & Hrun & Hkept).
  - reflexivity.
  - intros v [= <-]. reflexivity.
  - exists task'. split; [exact Hrun | exact Hkept].
Defined.

(** ** POST *)

Lemma truthy_false_iff (v : option value) :
  truthy v = false <->
  v = None \/ v = Some VNull \/ v = Some (VBool false)
  \/ (exists q : Q, v = Some (VNum (Fin q)) /\ (q == 0)%Q)
  \/ v = Some (VNum NaN) \/ v = Some (VStr "").
Proof.
  destruct v as [[|[|]|[q| | |]|s| |]|]; cbn;
    try (split; [tauto | done]);
    try (split; [done | intros [?|[?|[?|[(? & ? & _)|[?|?]]]]]; done]).
  - rewrite negb_false_iff, Qeq_bool_iff. split.
    + intros Hq. right; right; right; left. by exists q.
    + intros [?|[?|[?|[(q' & [= <-] & Hq)|[?|?]]]]]; done.
  - rewrite negb_false_iff, String.eqb_eq. split.
    + intros ->. tauto.
    + intros [?|[?|[?|[(? & ? & _)|[?|[= ->]]]]]]; done.
Qed.

(** C5 as stated fails on both sides.  A title of three spaces is created
    with 201, and the title 0, which is neither missing nor empty nor
    whitespace, is refused with 400. *)
Lemma post_accepts_whitespace_title :
  status (post_tasks (host := sample_host) sample_env [] whitespace_title).2
  = 201
  /\ length (post_tasks (host := sample_host) sample_env [] whitespace_title).1
     = 1%nat
  /\ status (post_tasks (host := sample_host) sample_env [] zero_title).2 = 400
  /\ (post_tasks (host := sample_host) sample_env [] zero_title).1 = [].
Proof. repeat split; reflexivity. Qed.

(** C5, as amended.  POST /tasks answers 400 with [{error}] and adds no
    task exactly when the title is falsy: missing, null, false, the number
    0, NaN or the empty string.  For every other title it appends the task
    the constructor makes of it and answers 201 with that task, which has no
    priority_score property. *)
Theorem post_rejects_exactly_falsy_titles
  `{Host} (e : ctor_env) (tasks : list obj) (body : obj) :
  (truthy (body !! "title") = false <->
   body !! "title" = None \/ body !! "title" = Some VNull
   \/ body !! "title" = Some (VBool false)
   \/ (exists q : Q, body !! "title" = Some (VNum (Fin q)) /\ (q == 0)%Q)
   \/ body !! "title" = Some (VNum NaN) \/ body !! "title" = Some (VStr ""))
  /\ (truthy (body !! "title") = false ->
      post_tasks e tasks body =
        (tasks, {| status := 400; json := JError "Title is required" |}))
  /\ (truthy (body !! "title") = true ->
      exists (title : value) (task : obj),
        body !! "title" = Some title
        /\ task = Task e title (js_or (body !! "description") (VStr ""))
        /\ post_tasks e tasks body =
             (tasks ++ [task], {| status := 201; json := JTask task |})
        /\ task !! "title" = Some title
        /\ task !! "priority_score" = None).
Proof.
  split; [apply truthy_false_iff|]. unfold post_tasks. split.
  - by intros ->.
  - intros Htruthy. rewrite Htruthy. cbn.
    destruct (body !! "title") as [title|] eqn:Htitle; [|done].
    eexists title, _. repeat split; apply Task_fields.
Qed.

Lemma post_rejects_exactly_falsy_titles_witness :
  post_tasks (host := sample_host) sample_env store_created zero_title
  = (store_created, {| status := 400; json := JError "Title is required" |})
  /\ exists task : obj,
       post_tasks (host := sample_host) sample_env [] sample_body
       = ([task], {| status := 201; json := JTask task |})
       /\ task !! "priority_score" = None.
Proof.
  split.
  - by apply (post_rejects_exactly_falsy_titles (H := sample_host)).
  - destruct (post_rejects_exactly_falsy_titles (H := sample_host)
                sample_env [] sample_body) as (_ & _ & Hcreated).
    destruct (Hcreated eq_refl) as (title & task & _ & _ & Hrun & _ & Hscore).
    by exists task.
Defined.

(** ** The constructor's initial values *)






(** On doubles the expression is exactly 0.1 at the draw 0 and stays below 1
    at the largest draw. *)
#[warnings="-inexact-float"]
Example volatility_double_ends :
  PrimFloat.eqb (volatility_double 0) 0.1 = true
  /\ PrimFloat.ltb (volatility_double largest_draw) 1 = true.
Proof. split; reflexivity. Qed.



(** ** The corruption engine *)

(** C8.  On every run of the corruption engine, the task it selects, if
    any, is one of the store's with status Doing and with
    [now - updated_at] strictly above the stale threshold of 30 seconds; so
    its status is neither Todo nor Done and it was not updated within the
    threshold, whatever else the store holds. *)
Theorem corruption_selects_only_stale_doing
  `{Host} (e : tick_env) (tasks : list obj) (i : nat) (task : obj) :
  random_element (rand_task e) (staleTasks e tasks) = Some (i, task) ->
  tasks !! i = Some task
  /\ task !! "status" = Some (VStr "Doing")
  /\ task !! "status" <> Some (VStr "Todo")
  /\ task !! "status" <> Some (VStr "Done")
  /\ exists u : Z,
       getTime (task !! "updated_at") = num_of_Z u
       /\ (tick_now e - u > 30 * 1000)%Z.
Proof.
  intros [Hlook Hstale]%picked_is_stale.
  apply is_stale_inv in Hstale as (Hstatus & u & Hu & Hgt).
  split; [done|]. split; [done|]. rewrite Hstatus.
  split; [done|]. split; [done|]. by exists u.
Qed.

Lemma corruption_selects_only_stale_doing_witness :
  exists task : obj,
    random_element (rand_task sample_tick)
                   (staleTasks (host := sample_host) sample_tick store_doing)
    = Some (0%nat, task)
    /\ task !! "status" = Some (VStr "Doing")
    /\ exists u : Z,
         getTime (host := sample_host) (task !! "updated_at") = num_of_Z u
         /\ (40000 - u > 30 * 1000)%Z.
Proof.
  eexists. split; [reflexivity|].
  edestruct (corruption_selects_only_stale_doing (H := sample_host)
               sample_tick store_doing 0%nat)
    as (_ & Hstatus & _ & _ & Hstale); [reflexivity|].
  split; [exact Hstatus | exact Hstale].
Defined.

(** With a draw in [0, 1), a run selects a task whenever one is stale. *)
Lemma corruption_selects_when_stale
  `{Host} (e : tick_env) (tasks : list obj) (j : nat) (stale : obj) :
  (0 <= rand_task e)%Q -> (rand_task e < 1)%Q ->
  tasks !! j = Some stale -> is_stale (tick_now e) stale = true ->
  is_Some (random_element (rand_task e) (staleTasks e tasks)).
Proof.
  intros H0 H1 Hlook Hstale. apply random_element_in_range; [done | done |].
  assert ((j, stale) ∈ staleTasks e tasks) as Hin
    by by apply array_filter_elem.
  intros Hnil. rewrite Hnil in Hin. by apply elem_of_nil in Hin.
Qed.

(** C10.  A corruption run that mutates a task (it then broadcasts)
    changes the description and the corrupted flag of the selected task and
    nothing else: every other property of that task (version, updated_at,
    status, title, deadline, volatility_factor among them) and every other
    task are as before; so on any later run the task is again in the stale
    subset.  A run that returns without broadcasting changes nothing. *)
Theorem corruption_changes_only_description_and_flag
  `{Host} (e : tick_env) (tasks tasks' : list obj) (broadcast : bool) :
  corruptStaleTasks e tasks = Returned tasks' broadcast ->
  (broadcast = false -> tasks' = tasks)
  /\ (broadcast = true ->
      exists (i : nat) (task task' : obj) (desc' : string),
        random_element (rand_task e) (staleTasks e tasks) = Some (i, task)
        /\ tasks !! i = Some task
        /\ tasks' = <[i := task']> tasks
        /\ task' !! "description" = Some (VStr desc')
        /\ task' !! "corrupted" = Some (VBool true)
        /\ (forall k : string,
              k <> "description" -> k <> "corrupted" ->
              task' !! k = task !! k)
        /\ (forall j : nat, j <> i -> tasks' !! j = tasks !! j)
        /\ length tasks' = length tasks
        /\ (forall e' : tick_env,
              (tick_now e <= tick_now e')%Z ->
              (i, task') ∈ staleTasks e' tasks')).
Proof.
  intros Hrun.
  apply corruptStaleTasks_Returned in Hrun
    as [[-> ->]|(-> & i & task & method & desc & Hpick & _ & _ & _ & ->)].
  - split; [done | discriminate].
  - split; [discriminate|]. intros _.
    pose proof Hpick as [Hlook Hstale]%picked_is_stale.
    eexists i, task, _, (method desc).
    split; [done|]. split; [done|]. split; [reflexivity|].
    split; [by rewrite lookup_insert_ne, lookup_insert_eq|].
    split; [by rewrite lookup_insert_eq|].
    split; [intros k Hd Hc; by rewrite !lookup_insert_ne|].
    split; [intros j Hne; by rewrite list_lookup_insert_ne|].
    split; [apply length_insert|].
    intros e' Hlater. apply array_filter_elem. split.
    + apply list_lookup_insert_eq. by eapply lookup_lt_Some.
    + apply is_stale_inv in Hstale as (Hstatus & u & Hu & Hgt).
      apply is_stale_inv. rewrite !lookup_insert_ne by done.
      split; [done|]. exists u. split; [done | lia].
Qed.

Lemma corruption_changes_only_description_and_flag_witness :
  exists (i : nat) (task task' : obj),
    store_doing !! i = Some task
    /\ corruptStaleTasks (host := sample_host) sample_tick store_doing
       = Returned (<[i := task']> store_doing) true
    /\ task' !! "corrupted" = Some (VBool true)
    /\ task' !! "version" = task !! "version"
    /\ task' !! "updated_at" = task !! "updated_at".
Proof.
  destruct (corruption_changes_only_description_and_flag (H := sample_host)
              sample_tick store_doing
              (<[0%nat := <["corrupted" := VBool true]>
                   (<["description" := VStr "⚠️ CORRUPTED: hello world..."]>
                      (apply_patch (host := sample_host) 5000 move_to_doing
                         (Task (host := sample_host) sample_env
                               (VStr "A") (VStr "hello world"))))]> store_doing)
              true eq_refl) as (_ & Hmutated).
  destruct (Hmutated eq_refl)
    as (i & task & task' & desc' & _ & Hlook & Hstore & _ & Hflag & Hframe & _).
  exists i, task, task'. split; [exact Hlook|].
  split; [by rewrite <- Hstore|].
  split; [exact Hflag|]. split; by apply Hframe.
Defined.

(** ** The client's map of pending edits *)

Lemma Qeq_bool_sym (x y : Q) : Qeq_bool x y = Qeq_bool y x.
Proof.
  apply eq_true_iff_eq. rewrite !Qeq_bool_iff. split; intros Heq; by symmetry.
Qed.

Lemma Qeq_bool_trans (x y z : Q) :
  Qeq_bool x y = true -> Qeq_bool y z = true -> Qeq_bool x z = true.
Proof. rewrite !Qeq_bool_iff. intros Hxy Hyz. by rewrite Hxy. Qed.

Lemma same_value_zero_sym (a b : option value) :
  same_value_zero a b = same_value_zero b a.
Proof.
  destruct a as [[| x | [x| | |] | x | |]|], b as [[| y | [y| | |] | y | |]|];
    cbn; try reflexivity.
  - by destruct x, y.
  - apply Qeq_bool_sym.
  - apply eq_true_iff_eq. rewrite !String.eqb_eq. split; by intros ->.
Qed.

Lemma same_value_zero_trans (a b c : option value) :
  same_value_zero a b = true -> same_value_zero b c = true ->
  same_value_zero a c = true.
Proof.
  destruct a as [[| x | [x| | |] | x | |]|], b as [[| y | [y| | |] | y | |]|];
    cbn; try discriminate;
    destruct c as [[| z | [z| | |] | z | |]|]; cbn; try discriminate;
    try reflexivity.
  - destruct x, y, z; cbn; congruence.
  - apply Qeq_bool_trans.
  - rewrite !String.eqb_eq. congruence.
Qed.

Lemma Map_get_cons (k : option value) (v : obj) (m : Map) (key : option value) :
  Map_get ((k, v) :: m) key =
    if same_value_zero k key then Some v else Map_get m key.
Proof. unfold Map_get. cbn. by destruct (same_value_zero k key). Qed.

Lemma Map_has_get (m : Map) (key : option value) :
  Map_has m key = true <-> is_Some (Map_get m key).
Proof.
  induction m as [|[k v] m IH]; [by split; [|intros [? ?]]|].
  rewrite Map_get_cons. unfold Map_has in *. cbn.
  destruct (same_value_zero k key); cbn; [by split; [eauto|] | exact IH].
Qed.

Lemma Map_get_None (m : Map) (key : option value) :
  Map_get m key = None <->
  Forall (fun entry => same_value_zero entry.1 key = false) m.
Proof.
  induction m as [|[k v] m IH]; [by split; [constructor|]|].
  rewrite Map_get_cons, Forall_cons. cbn.
  destruct (same_value_zero k key); [by split; [|intros [? _]]|].
  rewrite IH. by split; [|intros [_ ?]].
Qed.

(** With unique keys, the entry stored under a key is the one [get] finds. *)
Lemma Map_get_entry (m : Map) (k key : option value) (v : obj) :
  unique_keys m -> (k, v) ∈ m -> same_value_zero k key = true ->
  Map_get m key = Some v.
Proof.
  intros Huniq. induction Huniq as [|k0 v0 m Hfresh _ IH]; intros Hin Hkey.
  - by apply elem_of_nil in Hin.
  - rewrite Map_get_cons. apply elem_of_cons in Hin as [[= -> ->]|Hin].
    + by rewrite Hkey.
    + destruct (same_value_zero k0 key) eqn:Hk0; [|by apply IH].
      rewrite Forall_forall in Hfresh. specialize (Hfresh _ Hin). cbn in Hfresh.
      rewrite same_value_zero_sym in Hkey.
      by rewrite (same_value_zero_trans _ _ _ Hk0 Hkey) in Hfresh.
Qed.

Lemma Map_set_keys (P : option value -> Prop) (m : Map) (k : option value) (v : obj) :
  P k -> Forall (fun entry => P entry.1) m ->
  Forall (fun entry => P entry.1) (Map_set m k v).
Proof.
  intros Hk. induction m as [|[k0 v0] m IH]; intros Hall; cbn.
  - by repeat constructor.
  - apply Forall_cons in Hall as [H0 Hrest].
    destruct (same_value_zero k0 k); constructor; auto.
Qed.

Lemma Map_set_unique (m : Map) (k : option value) (v : obj) :
  unique_keys m -> unique_keys (Map_set m k v).
Proof.
  intros Huniq. induction Huniq as [|k0 v0 m Hfresh Huniq IH]; cbn.
  - by repeat constructor.
  - destruct (same_value_zero k0 k) eqn:Hk0; constructor; try done.
    by apply (Map_set_keys (fun key => same_value_zero k0 key = false)).
Qed.

Lemma Map_delete_keys (P : option value -> Prop) (m : Map) (k : option value) :
  Forall (fun entry => P entry.1) m ->
  Forall (fun entry => P entry.1) (Map_delete m k).
Proof.
  induction m as [|[k0 v0] m IH]; intros Hall; cbn; [done|].
  apply Forall_cons in Hall as [H0 Hrest].
  destruct (same_value_zero k0 k); [done | constructor; auto].
Qed.

Lemma Map_delete_unique (m : Map) (k : option value) :
  unique_keys m -> unique_keys (Map_delete m k).
Proof.
  intros Huniq. induction Huniq as [|k0 v0 m Hfresh Huniq IH]; cbn.
  - constructor.
  - destruct (same_value_zero k0 k); [done|]. constructor; [|done].
    by apply (Map_delete_keys (fun key => same_value_zero k0 key = false)).
Qed.

(** [set] then [get]: the shadow just recorded is the one found. *)
Lemma Map_get_set (m : Map) (k key : option value) (v : obj) :
  same_value_zero k key = true -> Map_get (Map_set m k v) key = Some v.
Proof.
  intros Hkey. induction m as [|[k0 v0] m IH]; cbn [Map_set fst].
  - by rewrite Map_get_cons, Hkey.
  - destruct (same_value_zero k0 k) eqn:Hk0; rewrite Map_get_cons.
    + by rewrite (same_value_zero_trans _ _ _ Hk0 Hkey).
    + destruct (same_value_zero k0 key) eqn:Hk0'; [|exact IH].
      rewrite same_value_zero_sym in Hkey.
      by rewrite (same_value_zero_trans _ _ _ Hk0' Hkey) in Hk0.
Qed.

(** [delete] then [get]: nothing is found under the key any more. *)
Lemma Map_get_delete (m : Map) (k key : option value) :
  unique_keys m -> same_value_zero k key = true ->
  Map_get (Map_delete m k) key = None.
Proof.
  intros Huniq Hkey.
  induction Huniq as [|k0 v0 m Hfresh Huniq IH]; cbn [Map_delete fst]; [done|].
  destruct (same_value_zero k0 k) eqn:Hk0.
  - apply Map_get_None. eapply Forall_impl; [exact Hfresh|].
    intros [k1 v1] Hk1. cbn in *.
    destruct (same_value_zero k1 key) eqn:Hk1'; [|done].
    rewrite same_value_zero_sym in Hk1'.
    pose proof (same_value_zero_trans _ _ _ Hk0 Hkey) as Hk0key.
    by rewrite (same_value_zero_trans _ _ _ Hk0key Hk1') in Hk1.
  - rewrite Map_get_cons.
    destruct (same_value_zero k0 key) eqn:Hk0'; [|exact IH].
    rewrite same_value_zero_sym in Hkey.
    by rewrite (same_value_zero_trans _ _ _ Hk0' Hkey) in Hk0.
Qed.

(** C9.  For every incoming [tasks_updated] snapshot, the local list the
    client sets has one task for each server task, in the same order: a
    server task whose id has an entry in [pendingUpdates] is shown as the
    shadow stored in that entry, and a server task whose id has no entry is
    shown as the server sent it. *)
Theorem snapshot_shows_shadow_else_server_task
  (pendingUpdates : Map) (updatedTasks : list obj) (i : nat) (serverTask : obj) :
  unique_keys pendingUpdates ->
  updatedTasks !! i = Some serverTask ->
  length (on_tasks_updated pendingUpdates updatedTasks) = length updatedTasks
  /\ (forall (key : option value) (shadow : obj),
        (key, shadow) ∈ pendingUpdates ->
        same_value_zero key (serverTask !! "id") = true ->
        on_tasks_updated pendingUpdates updatedTasks !! i = Some shadow)
  /\ ((forall (key : option value) (shadow : obj),
          (key, shadow) ∈ pendingUpdates ->
          same_value_zero key (serverTask !! "id") = false) ->
      on_tasks_updated pendingUpdates updatedTasks !! i = Some serverTask).
Proof.
  intros Huniq Hlook. unfold on_tasks_updated.
  split; [apply length_map|]. rewrite list_lookup_fmap, Hlook. cbn. split.
  - intros key shadow Hin Hkey.
    pose proof (Map_get_entry _ _ _ _ Huniq Hin Hkey) as Hget.
    assert (Map_has pendingUpdates (serverTask !! "id") = true) as ->
      by (apply Map_has_get; by rewrite Hget).
    by rewrite Hget.
  - intros Hnone.
    assert (Map_get pendingUpdates (serverTask !! "id") = None) as Hget.
    { apply Map_get_None, Forall_forall. intros [key shadow] Hin.
      by apply (Hnone key shadow). }
    destruct (Map_has pendingUpdates (serverTask !! "id")) eqn:Hhas; [|done].
    apply Map_has_get in Hhas as [shadow Hshadow]. congruence.
Qed.

Lemma snapshot_shows_shadow_else_server_task_witness :
  on_tasks_updated pending_t1 [server_t2; server_t1] !! 1%nat
  = Some optimistic_t1
  /\ on_tasks_updated pending_t1 [server_t2; server_t1] !! 0%nat
     = Some server_t2.
Proof.
  assert (unique_keys pending_t1) as Huniq
    by apply Map_set_unique, unique_nil.
  split.
  - destruct (snapshot_shows_shadow_else_server_task
                pending_t1 [server_t2; server_t1] 1%nat server_t1 Huniq eq_refl)
      as (_ & Hshadow & _).
    apply (Hshadow (Some (VStr "t1"))); [|reflexivity].
    apply list_elem_of_here.
  - destruct (snapshot_shows_shadow_else_server_task
                pending_t1 [server_t2; server_t1] 0%nat server_t2 Huniq eq_refl)
      as (_ & _ & Hserver).
    apply Hserver. intros key shadow Hin.
    apply list_elem_of_singleton in Hin as [= -> ->]. reflexivity.
Defined.

(** Once the answer has come and the entry is deleted, the next snapshot
    shows the server's task again. *)
Lemma snapshot_after_delete
  (pendingUpdates : Map) (taskId : option value) (updatedTasks : list obj)
  (i : nat) (serverTask : obj) :
  unique_keys pendingUpdates ->
  same_value_zero taskId (serverTask !! "id") = true ->
  updatedTasks !! i = Some serverTask ->
  on_tasks_updated (Map_delete pendingUpdates taskId) updatedTasks !! i
  = Some serverTask.
Proof.
  intros Huniq Hkey Hlook. unfold on_tasks_updated.
  rewrite list_lookup_fmap, Hlook. cbn.
  pose proof (Map_get_delete _ _ _ Huniq Hkey) as Hget.
  destruct (Map_has _ _) eqn:Hhas; [|done].
  apply Map_has_get in Hhas as [shadow Hshadow]. congruence.
Qed.

(** ** The string operators on a sample description *)

Example corrupt_vowels_hello :
  corrupt_vowels "hello wOrld" = "h█ll█ w█rld".
Proof. reflexivity. Qed.

Example corrupt_words_hello :
  corrupt_words "hello big world" = "world big hello".
Proof. reflexivity. Qed.

Example corrupt_mask_hello :
  corrupt_mask (fun k => if Nat.even k then 1 else 0)%Q "hello" = "?e?l?".
Proof. reflexivity. Qed.

Example corrupt_truncate_alphabet :
  corrupt_truncate "abcdefghijklmnopqrstuvwxyz"
  = "⚠️ CORRUPTED: abcdefghijklmnopqrst...".
Proof. reflexivity. Qed.

(** The end-to-end scenario: created with version 0 and status Todo, moved
    to Doing with version 0 (200, version 1), and a second PATCH with the
    stale version 0 is answered 409 with current_version 1. *)
Example end_to_end_scenario :
  exists created doing : obj,
    post_tasks (host := sample_host) sample_env [] sample_body
    = ([created], {| status := 201; json := JTask created |})
    /\ created !! "version" = Some (VNum (Fin 0))
    /\ created !! "status" = Some (VStr "Todo")
    /\ patch_task (host := sample_host) 5000 [created] sample_id move_to_doing
       = ([doing], {| status := 200; json := JTask doing |})
    /\ doing !! "version" = Some (VNum (Fin (0 + 1)))
    /\ doing !! "status" = Some (VStr "Doing")
    /\ patch_task (host := sample_host) 9000 [doing] sample_id move_to_doing
       = ([doing],
          {| status := 409;
             json := JConflict "Version conflict"
                               (Some (VNum (Fin (0 + 1)))) doing |}).
Proof. do 2 eexists. repeat split; reflexivity. Qed.

(** While the entry set by an optimistic edit is there, every snapshot shows
    the edited task at the place of the server's. *)
Lemma snapshot_after_set
  (pendingUpdates : Map) (taskId : option value) (optimisticTask : obj)
  (updatedTasks : list obj) (i : nat) (serverTask : obj) :
  same_value_zero taskId (serverTask !! "id") = true ->
  updatedTasks !! i = Some serverTask ->
  on_tasks_updated (Map_set pendingUpdates taskId optimisticTask) updatedTasks
    !! i = Some optimisticTask.
Proof.
  intros Hkey Hlook. unfold on_tasks_updated.
  rewrite list_lookup_fmap, Hlook. cbn.
  pose proof (Map_get_set pendingUpdates _ _ optimisticTask Hkey) as Hget.
  assert (Map_has (Map_set pendingUpdates taskId optimisticTask)
                  (serverTask !! "id") = true) as ->
    by (apply Map_has_get; by rewrite Hget).
  by rewrite Hget.
Qed.

(** * The rest of the server *)

Section Snapshot.

Context `{host : Host}.

(** [arr.sort(cmp)].  The sort is stable and, for a comparator that orders
    its arguments consistently, leaves the one stable sorted arrangement,
    which is what inserting each element before the first one it does not
    sort after builds.  A comparator result that is NaN counts as 0.  For a
    comparator that is not consistent the order is the engine's own. *)
Fixpoint sort_insert {A : Type} (cmp : A -> A -> number) (x : A) (l : list A)
  : list A :=
  match l with
  | [] => [x]
  | y :: rest =>
      if num_gtb (cmp x y) (Fin 0) then y :: sort_insert cmp x rest
      else x :: y :: rest
  end.

Definition Array_sort {A : Type} (cmp : A -> A -> number) (l : list A)
  : list A := foldr (sort_insert cmp) [] l.

(** The comparator of line 384: [b.priority_score - a.priority_score]. *)
Definition by_score_descending (a b : obj) : number :=
  num_sub (ToNumber (b !! "priority_score")) (ToNumber (a !! "priority_score")).

(** [getTasksWithScores], lines 378-387.  Each call of
    [calculatePriorityScore] reads the clock for itself: [clock k] is the
    reading of the call for the task at index [k]. *)
Definition getTasksWithScores (clock : nat -> Z) (tasks : list obj)
  : list obj :=
  let tasksWithScores :=
    imap (fun k task =>
            <["priority_score" :=
                VNum (calculatePriorityScore (clock k) task)]> task)
         tasks in
  Array_sort by_score_descending tasksWithScores.

End Snapshot.

(** ** DELETE and lookups by id *)

Lemma find_from_None {A : Type} (p : A -> bool) (l : list A) (i : nat) :
  find_from p l i = None <-> Forall (fun x => p x = false) l.
Proof.
  revert i. induction l as [|a l IH]; intros i; cbn.
  - split; [constructor | done].
  - destruct (p a) eqn:Hpa.
    + split; [done | intros Hall; apply Forall_cons in Hall as [? _]; congruence].
    + rewrite IH. split; [by constructor | by intros [_ ?]%Forall_cons].
Qed.

(** [find] returns the element at [j] when it satisfies the test and none
    before it does. *)
Lemma find_from_first {A : Type} (p : A -> bool) (l : list A) (i j : nat) (x : A) :
  l !! j = Some x -> p x = true ->
  (forall (k : nat) (y : A), (k < j)%nat -> l !! k = Some y -> p y = false) ->
  find_from p l i = Some ((i + j)%nat, x).
Proof.
  revert i j. induction l as [|a l IH]; intros i j Hlook Hp Hbefore; [done|].
  destruct j as [|j]; cbn in *.
  - injection Hlook as ->. rewrite Hp. by rewrite Nat.add_0_r.
  - rewrite (Hbefore 0%nat a) by (lia || done).
    rewrite (IH (S i) j Hlook Hp).
    + do 2 f_equal. lia.
    + intros k y Hk Hy. apply (Hbefore (S k)); [lia | done].
Qed.

Lemma array_find_first {A : Type} (p : A -> bool) (l : list A) (j : nat) (x : A) :
  l !! j = Some x -> p x = true ->
  (forall (k : nat) (y : A), (k < j)%nat -> l !! k = Some y -> p y = false) ->
  array_find p l = Some (j, x).
Proof. intros. unfold array_find. by erewrite find_from_first. Qed.

Lemma array_find_None {A : Type} (p : A -> bool) (l : list A) :
  array_find p l = None <-> Forall (fun x => p x = false) l.
Proof. apply find_from_None. Qed.

(** X1.  DELETE answers 404 and leaves the store as it is exactly when no
    stored task has the id; otherwise it answers 204 and removes the first
    task with that id and nothing else: the tasks before it stay at their
    index, the tasks after it move down by one. *)
Theorem delete_removes_first_match (tasks : list obj) (id : string) :
  (status (delete_task tasks id).2 = 404 <->
   forall (j : nat) (t : obj), tasks !! j = Some t -> has_id id t = false)
  /\ (status (delete_task tasks id).2 = 404 -> (delete_task tasks id).1 = tasks)
  /\ (status (delete_task tasks id).2 <> 404 ->
      exists (i : nat) (task : obj),
        tasks !! i = Some task /\ has_id id task = true
        /\ (forall (j : nat) (t : obj),
              (j < i)%nat -> tasks !! j = Some t -> has_id id t = false)
        /\ delete_task tasks id
           = (delete i tasks, {| status := 204; json := JNone |})
        /\ S (length (delete_task tasks id).1) = length tasks
        /\ (forall j : nat,
              (j < i)%nat -> (delete_task tasks id).1 !! j = tasks !! j)
        /\ (forall j : nat,
              (i <= j)%nat -> (delete_task tasks id).1 !! j = tasks !! S j)).
Proof.
  unfold delete_task.
  destruct (array_find (has_id id) tasks) as [[i task]|] eqn:Hfind; cbn.
  - apply array_find_Some in Hfind as (Hlook & Hid & Hbefore).
    split; [|split; [done|]].
    + split; [done|]. intros Hnone. by rewrite (Hnone i task Hlook) in Hid.
    + intros _. exists i, task. repeat split; try done.
      * rewrite length_delete by eauto.
        apply lookup_lt_Some in Hlook. lia.
      * intros j Hj. by apply list_lookup_delete_lt.
      * intros j Hj. by apply list_lookup_delete_ge.
  - apply array_find_None in Hfind. rewrite Forall_lookup in Hfind.
    split; [by split|]. split; done.
Qed.

(** X2.  When only one stored task has the id, a successful DELETE makes the
    id unknown: a second DELETE and any PATCH with it are answered 404 and
    change nothing. *)
Theorem deleted_id_is_unknown
  `{Host} (tasks : list obj) (id : string) (i : nat) (task : obj)
  (now : Z) (body : obj) :
  tasks !! i = Some task ->
  has_id id task = true ->
  (forall (j : nat) (t : obj),
      j <> i -> tasks !! j = Some t -> has_id id t = false) ->
  (delete_task tasks id).1 = delete i tasks
  /\ delete_task (delete i tasks) id
     = (delete i tasks,
        {| status := 404; json := JError "Task not found" |})
  /\ patch_task now (delete i tasks) id body
     = (delete i tasks,
        {| status := 404; json := JError "Task not found" |}).
Proof.
  intros Hlook Hid Hothers.
  assert (array_find (has_id id) tasks = Some (i, task)) as Hfind.
  { apply array_find_first; [done | done |].
    intros k y Hk. apply Hothers. lia. }
  assert (array_find (has_id id) (delete i tasks) = None) as Hgone.
  { apply array_find_None, Forall_lookup. intros j t Hj.
    destruct (decide (j < i)%nat) as [Hlt|Hge].
    - rewrite list_lookup_delete_lt in Hj by done. apply (Hothers j); [lia | done].
    - rewrite list_lookup_delete_ge in Hj by lia. apply (Hothers (S j)); [lia | done]. }
  unfold delete_task, patch_task. by rewrite Hfind, Hgone.
Qed.

Lemma deleted_id_is_unknown_witness :
  delete_task (delete 0%nat store_created) sample_id
  = ([], {| status := 404; json := JError "Task not found" |}).
Proof.
  edestruct (deleted_id_is_unknown (H := sample_host) store_created sample_id
               0%nat _ 0%Z ∅ eq_refl eq_refl) as (_ & Hsecond & _).
  - by intros [|j] t Hne Hj.
  - exact Hsecond.
Defined.

(** ** POST, then requests by the new id *)

Lemma Task_id `{Host} (e : ctor_env) (title description : value) :
  Task e title description !! "id"
  = Some (VStr (NumberToString (num_of_Z (now_id e))
                +:+ NumberToString (Fin (rand_id e)))).
Proof.
  unfold Task. do 8 rewrite lookup_insert_ne by done.
  by rewrite lookup_insert_eq.
Qed.

Lemma has_id_refl (id : string) (t : obj) :
  t !! "id" = Some (VStr id) -> has_id id t = true.
Proof. intros Hid. unfold has_id. rewrite Hid. cbn. apply String.eqb_refl. Qed.

(** X3.  A POST with a truthy title stores the new task last, under the id
    made of the clock reading and the draw, with the body's description or
    the empty string when that is missing or falsy.  When no task stored
    before has that id, a request by it finds the new task; when one has,
    the request finds the older task and never the new one. *)
Theorem posted_task_is_found_by_its_id
  `{Host} (e : ctor_env) (tasks : list obj) (body : obj) :
  truthy (body !! "title") = true ->
  exists (task : obj) (id : string),
    post_tasks e tasks body
    = (tasks ++ [task], {| status := 201; json := JTask task |})
    /\ id = NumberToString (num_of_Z (now_id e))
            +:+ NumberToString (Fin (rand_id e))
    /\ task !! "id" = Some (VStr id)
    /\ (truthy (body !! "description") = true ->
        task !! "description" = body !! "description")
    /\ (truthy (body !! "description") = false ->
        task !! "description" = Some (VStr ""))
    /\ ((forall (j : nat) (t : obj),
            tasks !! j = Some t -> has_id id t = false) ->
        array_find (has_id id) (tasks ++ [task]) = Some (length tasks, task))
    /\ (forall (j : nat) (t : obj),
          array_find (has_id id) tasks = Some (j, t) ->
          array_find (has_id id) (tasks ++ [task]) = Some (j, t)).
Proof.
  intros Htitle. unfold post_tasks. rewrite Htitle. cbn.
  destruct (body !! "title") as [title|] eqn:Hbody; [|done].
  eexists _, _. split; [reflexivity|]. split; [reflexivity|].
  split; [apply Task_id|].
  destruct (Task_fields e title (js_or (body !! "description") (VStr "")))
    as (_ & Hdesc & _).
  split; [|split; [|split]].
  - intros Htruthy. rewrite Hdesc. unfold js_or.
    destruct (body !! "description"); [by rewrite Htruthy | done].
  - intros Hfalsy. rewrite Hdesc. unfold js_or.
    destruct (body !! "description"); [by rewrite Hfalsy | done].
  - intros Hfresh. apply array_find_first.
    + by rewrite lookup_app_r, Nat.sub_diag.
    + apply has_id_refl, Task_id.
    + intros k y Hk Hy. rewrite lookup_app_l in Hy by done. by eapply Hfresh.
  - intros j t Hfind. apply array_find_Some in Hfind as (Hlook & Hid & Hbefore).
    apply array_find_first; [by apply lookup_app_l_Some | done |].
    intros k y Hk Hy. apply (Hbefore k); [done|].
    apply lookup_lt_Some in Hlook. by rewrite lookup_app_l in Hy by lia.
Qed.

Lemma posted_task_is_found_by_its_id_witness :
  exists task : obj,
    post_tasks (host := sample_host) sample_env [] sample_body
    = ([task], {| status := 201; json := JTask task |})
    /\ array_find (has_id sample_id) [task] = Some (0%nat, task).
Proof.
  destruct (posted_task_is_found_by_its_id (H := sample_host)
              sample_env [] sample_body eq_refl)
    as (task & id & Hrun & -> & _ & _ & _ & Hfound & _).
  exists task. split; [exact Hrun|]. by apply Hfound.
Defined.

(** ** Two PATCHes that expect the same version *)





(** ** What every step of the server keeps *)

Lemma server_step_Forall `{Host} (P : obj -> Prop) (tasks tasks' : list obj) :
  (forall (e : ctor_env) (title description : value),
      P (Task e title description)) ->
  (forall (now : Z) (body task : obj),
      P task -> version_conflict body task = false ->
      P (apply_patch now body task)) ->
  (forall (task : obj) (s : string),
      P task ->
      P (<["corrupted" := VBool true]> (<["description" := VStr s]> task))) ->
  server_step tasks tasks' -> Forall P tasks -> Forall P tasks'.
Proof.
  intros Hnew Hpatch Htick Hstep Hall.
  destruct Hstep as [e body tasks|now id body tasks|id tasks|e tasks tasks' b Hrun].
  - unfold post_tasks. destruct (truthy (body !! "title")); cbn; [|done].
    destruct (body !! "title"); cbn; [|done].
    apply Forall_app. split; [done|]. apply Forall_singleton, Hnew.
  - unfold patch_task.
    destruct (array_find (has_id id) tasks) as [[i task]|] eqn:Hfind; [|done].
    destruct (version_conflict body task) eqn:Hguard; cbn; [done|].
    apply array_find_Some in Hfind as (Hlook & _).
    apply Forall_insert; [done|]. apply Hpatch; [|done].
    by eapply Forall_lookup_1.
  - unfold delete_task.
    destruct (array_find (has_id id) tasks) as [[i task]|]; [|done].
    by apply Forall_delete.
  - apply corruptStaleTasks_Returned in Hrun
      as [[_ ->]|(_ & i & task & method & desc & Hpick & _ & _ & _ & ->)]; [done|].
    apply picked_is_stale in Hpick as [Hlook _].
    apply Forall_insert; [done|]. apply Htick. by eapply Forall_lookup_1.
Qed.

(** The version is the Number of a natural number. *)
Definition version_is_natural (t : obj) : Prop :=
  exists (n : nat) (q : Q),
    t !! "version" = Some (VNum (Fin q)) /\ (q == inject_Z (Z.of_nat n))%Q.

(** X5.  In every store the server can reach, the version of every task is
    a non-negative integer. *)
Theorem reachable_versions_are_naturals
  `{Host} (tasks : list obj) (i : nat) (task : obj) :
  reachable tasks -> tasks !! i = Some task -> version_is_natural task.
Proof.
  intros Hreach Hlook.
  assert (Forall version_is_natural tasks) as Hall;
    [|by eapply Forall_lookup_1].
  clear i task Hlook. revert tasks Hreach.
  apply (rtc_ind_r (Forall version_is_natural) (@nil obj)); [constructor|].
  intros mid tasks _ Hstep IH.
  apply (server_step_Forall version_is_natural mid tasks); try done.
  - intros e title description. exists 0%nat, 0%Q.
    split; [apply Task_fields | reflexivity].
  - intros now body task (n & q & Hq & Hn) Hguard. exists (S n).
    rewrite apply_patch_version.
    destruct (body !! "version") as [v|] eqn:Hbody.
    + rewrite version_conflict_false in Hguard.
      specialize (Hguard v Hbody). rewrite Hq in Hguard.
      apply strict_eq_finite in Hguard as (q' & -> & Hq').
      exists (q' + 1)%Q. split; [done|].
      rewrite Hq', Hn, Nat2Z.inj_succ, <- Z.add_1_r, inject_Z_plus. reflexivity.
    + rewrite Hq. exists (q + 1)%Q. split; [done|].
      rewrite Hn, Nat2Z.inj_succ, <- Z.add_1_r, inject_Z_plus. reflexivity.
  - intros task s (n & q & Hq & Hn). exists n, q.
    by rewrite !lookup_insert_ne.
Qed.

Lemma reachable_versions_are_naturals_witness :
  exists task : obj, store_doing !! 0%nat = Some task /\ version_is_natural task.
Proof.
  eexists. split; [reflexivity|].
  eapply (reachable_versions_are_naturals (H := sample_host) store_doing 0%nat);
    [|reflexivity].
  eapply rtc_l; [apply (step_post sample_env sample_body)|].
  apply rtc_once, (step_patch 5000 sample_id move_to_doing).
Defined.

(** ** A PATCH and the clock-driven parts *)

(** X6.  An accepted PATCH that names neither deadline nor volatility_factor
    resets the urgency: at the instant of the PATCH the score of the patched
    task is 0, provided the task's deadline is still ahead and its
    volatility is a finite number. *)
Theorem patched_task_scores_zero
  `{Host} (now : Z) (tasks : list obj) (id : string) (body : obj)
  (i : nat) (task : obj) (d : Z) (v : Q) :
  array_find (has_id id) tasks = Some (i, task) ->
  (forall cv : value,
      body !! "version" = Some cv ->
      strict_eq (Some cv) (task !! "version") = true) ->
  body !! "deadline" = None ->
  body !! "volatility_factor" = None ->
  getTime (task !! "deadline") = num_of_Z d ->
  ToNumber (task !! "volatility_factor") = Fin v ->
  (now < d)%Z ->
  exists (task' : obj) (q : Q),
    patch_task now tasks id body
    = (<[i := task']> tasks, {| status := 200; json := JTask task' |})
    /\ calculatePriorityScore now task' = Fin q
    /\ (q == 0)%Q.
Proof.
  intros Hfind Haccepted Hnod Hnov Hd Hv Hlt.
  eexists (apply_patch now body task), _.
  unfold patch_task. rewrite Hfind.
  apply version_conflict_false in Haccepted as ->.
  split; [reflexivity|]. split.
  - apply (score_before_deadline _ now d v).
    + by rewrite apply_patch_updated_at.
    + by rewrite apply_patch_other, Hnod.
    + by rewrite apply_patch_other, Hnov.
    + done.
  - unfold Qdiv. rewrite Qplus_opp_r. ring.
Qed.

Lemma patched_task_scores_zero_witness :
  exists (task' : obj) (q : Q),
    patch_task (host := sample_host) 5000 store_created sample_id move_to_doing
    = (<[0%nat := task']> store_created,
       {| status := 200; json := JTask task' |})
    /\ calculatePriorityScore (host := sample_host) 5000 task' = Fin q
    /\ (q == 0)%Q.
Proof.
  apply (patched_task_scores_zero (H := sample_host) 5000 store_created
           sample_id move_to_doing 0%nat
           (Task (host := sample_host) sample_env (VStr "A")
                 (VStr "hello world"))
           604800000 (110 # 200)); try reflexivity.
  intros cv [= <-]. reflexivity.
Defined.

(** X7.  A task that an accepted PATCH has just written is out of the
    corruption engine's reach for the stale threshold: no run whose clock
    is at most 30 seconds past the PATCH changes it, whatever its status. *)
Theorem patched_task_is_safe_for_the_threshold
  `{Host} (now : Z) (tasks : list obj) (id : string) (body : obj)
  (i : nat) (task : obj) (e : tick_env) (after : list obj) (broadcast : bool) :
  array_find (has_id id) tasks = Some (i, task) ->
  (forall cv : value,
      body !! "version" = Some cv ->
      strict_eq (Some cv) (task !! "version") = true) ->
  (tick_now e <= now + 30 * 1000)%Z ->
  corruptStaleTasks e (patch_task now tasks id body).1 = Returned after broadcast ->
  exists task' : obj,
    patch_task now tasks id body
    = (<[i := task']> tasks, {| status := 200; json := JTask task' |})
    /\ after !! i = Some task'.
Proof.
  intros Hfind Haccepted Hsoon Hrun.
  exists (apply_patch now body task).
  assert (patch_task now tasks id body
          = (<[i := apply_patch now body task]> tasks,
             {| status := 200; json := JTask (apply_patch now body task) |}))
    as Hpatch.
  { unfold patch_task. rewrite Hfind.
    by apply version_conflict_false in Haccepted as ->. }
  split; [exact Hpatch|]. rewrite Hpatch in Hrun. cbn in Hrun.
  apply array_find_Some in Hfind as (Hlook & _).
  assert (<[i := apply_patch now body task]> tasks !! i
          = Some (apply_patch now body task)) as Hthere
    by (apply list_lookup_insert_eq; by eapply lookup_lt_Some).
  apply corruptStaleTasks_Returned in Hrun
    as [[_ ->]|(_ & j & picked & method & desc & Hpick & _ & _ & _ & ->)];
    [done|].
  apply picked_is_stale in Hpick as [Hpicked Hstale].
  destruct (decide (j = i)) as [->|Hne]; [|by rewrite list_lookup_insert_ne].
  rewrite Hthere in Hpicked. injection Hpicked as <-.
  apply is_stale_inv in Hstale as (_ & u & Hu & Hgt).
  unfold getTime in Hu. rewrite apply_patch_updated_at in Hu. cbn in Hu.
  injection Hu as <-. unfold STALE_THRESHOLD in Hgt. lia.
Qed.

Lemma patched_task_is_safe_for_the_threshold_witness :
  exists task' : obj,
    store_doing !! 0%nat = Some task'
    /\ corruptStaleTasks (host := sample_host)
         {| tick_now := 35000; rand_task := 0; rand_method := 0;
            rand_op := fun _ => 0%Q |} store_doing
       = Returned store_doing false.
Proof.
  edestruct (patched_task_is_safe_for_the_threshold (H := sample_host)
               5000 store_created sample_id move_to_doing 0%nat _
               {| tick_now := 35000; rand_task := 0; rand_method := 0;
                  rand_op := fun _ => 0%Q |} store_doing false eq_refl)
    as (task' & _ & Hkept).
  - intros cv [= <-]. reflexivity.
  - cbn. lia.
  - reflexivity.
  - exists task'. split; [exact Hkept | reflexivity].
Defined.

(** ** When a corruption run returns and when it throws *)




(** A PATCH that gives the sample task a number as its description. *)
Definition number_description : obj :=
  {[ "status" := VStr "Doing"; "description" := VNum (Fin 5) ]}.

(** X9.  A corruption run throws, and so ends the server process, when
    the task it picks has a truthy description that is not a string: no
    operator can be applied to it.  Any client can bring this about with a
    PATCH. *)
Theorem corruption_run_throws_on_non_string
  `{Host} (e : tick_env) (tasks : list obj) (i : nat) (task : obj) :
  random_element (rand_task e) (staleTasks e tasks) = Some (i, task) ->
  truthy (task !! "description") = true ->
  (forall s : string, task !! "description" <> Some (VStr s)) ->
  corruptStaleTasks e tasks = Threw.
Proof.
  intros Hpick Htruthy Hnot. unfold corruptStaleTasks.
  destruct (length (staleTasks e tasks) =? 0)%nat eqn:Hlen.
  - apply Nat.eqb_eq, nil_length_inv in Hlen.
    apply random_element_elem in Hpick. rewrite Hlen in Hpick.
    by apply elem_of_nil in Hpick.
  - rewrite Hpick, Htruthy.
    destruct (random_element (rand_method e) (corruptions (rand_op e)));
      [|done].
    destruct (task !! "description") as [[| | | desc | |]|]; try done.
    by destruct (Hnot desc).
Qed.

Lemma corruption_run_throws_on_non_string_witness :
  reachable (host := sample_host)
    (patch_task (host := sample_host) 5000 store_created sample_id
                number_description).1
  /\ corruptStaleTasks (host := sample_host) sample_tick
       (patch_task (host := sample_host) 5000 store_created sample_id
                   number_description).1
     = Threw.
Proof.
  split.
  - eapply rtc_l; [apply (step_post sample_env sample_body)|].
    apply rtc_once, (step_patch 5000 sample_id number_description).
  - eapply (corruption_run_throws_on_non_string (H := sample_host)
              sample_tick _ 0%nat); [reflexivity | reflexivity |].
    intros s. discriminate.
Defined.

(** ** The snapshot *)

Lemma num_gtb_sub (a b : number) :
  a <> NaN -> b <> NaN ->
  num_gtb (num_sub b a) (Fin 0) = num_ltb a b.
Proof.
  intros Ha Hb. destruct a as [x| | |], b as [y| | |]; try done.
  unfold num_gtb, num_sub, num_ltb, num_neg, num_add. f_equal.
  apply eq_true_iff_eq. rewrite !Qle_bool_iff. split; intros Hle; lra.
Qed.

Lemma num_ltb_leb (a b : number) : num_ltb a b = true -> num_leb a b = true.
Proof.
  destruct a as [x| | |], b as [y| | |]; cbn; try done.
  rewrite negb_true_iff, Qle_bool_iff. intros Hnle.
  destruct (Qle_bool y x) eqn:Hyx; [done|].
  destruct (Qlt_le_dec y x) as [Hlt|Hle]; [|done].
  apply Qlt_le_weak, Qle_bool_iff in Hlt. congruence.
Qed.

Lemma num_ltb_false_leb (a b : number) :
  a <> NaN -> b <> NaN -> num_ltb a b = false -> num_leb b a = true.
Proof.
  intros Ha Hb. destruct a as [x| | |], b as [y| | |]; cbn; try done.
  by rewrite negb_false_iff.
Qed.

Lemma num_leb_trans (a b c : number) :
  num_leb a b = true -> num_leb b c = true -> num_leb a c = true.
Proof.
  destruct a as [x| | |], b as [y| | |], c as [z| | |]; cbn; try done.
  rewrite !Qle_bool_iff. apply Qle_trans.
Qed.

Lemma sort_insert_perm {A : Type} (cmp : A -> A -> number) (x : A) (l : list A) :
  sort_insert cmp x l ≡ₚ x :: l.
Proof.
  induction l as [|y l IH]; cbn [sort_insert]; [reflexivity|].
  destruct (num_gtb (cmp x y) (Fin 0)); [|reflexivity].
  rewrite IH. apply Permutation_swap.
Qed.

Lemma Array_sort_perm {A : Type} (cmp : A -> A -> number) (l : list A) :
  Array_sort cmp l ≡ₚ l.
Proof.
  induction l as [|x l IH]; cbn [Array_sort foldr]; [reflexivity|].
  fold (Array_sort cmp l). by rewrite sort_insert_perm, IH.
Qed.

Lemma StronglySorted_lookup {A : Type} (R : A -> A -> Prop) (l : list A)
  (i j : nat) (a b : A) :
  StronglySorted R l -> (i < j)%nat ->
  l !! i = Some a -> l !! j = Some b -> R a b.
Proof.
  intros Hsorted. revert i j. induction Hsorted as [|x l _ IH Hall];
    intros i j Hij Hi Hj; [done|].
  destruct j as [|j]; [lia|]. destruct i as [|i]; cbn in *.
  - injection Hi as <-. rewrite Forall_forall in Hall.
    apply Hall. by eapply list_elem_of_lookup_2.
  - apply (IH i j); [lia | done | done].
Qed.

Section SnapshotFacts.

Context `{host : Host}.

Definition score_of (t : obj) : number := ToNumber (t !! "priority_score").

(** [a] may stand before [b] in the snapshot. *)
Definition not_below (a b : obj) : Prop :=
  num_leb (score_of b) (score_of a) = true.

Lemma sort_insert_sorted (x : obj) (l : list obj) :
  score_of x <> NaN -> Forall (fun t => score_of t <> NaN) l ->
  StronglySorted not_below l ->
  StronglySorted not_below (sort_insert by_score_descending x l).
Proof.
  intros Hx Hl Hsorted.
  induction Hsorted as [|y l Hsorted IH Hall]; cbn [sort_insert].
  - by repeat constructor.
  - apply Forall_cons in Hl as [Hy Hl].
    replace (by_score_descending x y)
      with (num_sub (score_of y) (score_of x)) by reflexivity.
    rewrite num_gtb_sub by done.
    destruct (num_ltb (score_of x) (score_of y)) eqn:Hlt.
    + constructor; [by apply IH|].
      rewrite sort_insert_perm. constructor; [|done].
      by apply num_ltb_leb.
    + pose proof (num_ltb_false_leb _ _ Hx Hy Hlt) as Hxy.
      constructor; [by constructor|]. constructor; [done|].
      eapply Forall_impl; [exact Hall|]. intros z Hyz.
      unfold not_below in *. by eapply num_leb_trans.
Qed.

Lemma Array_sort_sorted (l : list obj) :
  Forall (fun t => score_of t <> NaN) l ->
  StronglySorted not_below (Array_sort by_score_descending l).
Proof.
  induction l as [|x l IH]; intros Hall; cbn [Array_sort foldr]; [constructor|].
  fold (Array_sort by_score_descending l).
  apply Forall_cons in Hall as [Hx Hl].
  apply sort_insert_sorted; [done | | by apply IH].
  by rewrite Array_sort_perm.
Qed.

End SnapshotFacts.

(** X10.  The snapshot holds each stored task exactly once, as a copy that
    carries its score under priority_score and is otherwise the stored
    task: it is a rearrangement of the scored copies, of the store's
    length. *)
Theorem snapshot_is_the_scored_store
  `{Host} (clock : nat -> Z) (tasks : list obj) :
  getTasksWithScores clock tasks
  ≡ₚ imap (fun k task =>
             <["priority_score" :=
                 VNum (calculatePriorityScore (clock k) task)]> task) tasks
  /\ length (getTasksWithScores clock tasks) = length tasks
  /\ (forall t : obj,
        t ∈ getTasksWithScores clock tasks <->
        exists (k : nat) (task : obj),
          tasks !! k = Some task
          /\ t = <["priority_score" :=
                     VNum (calculatePriorityScore (clock k) task)]> task).
Proof.
  assert (getTasksWithScores clock tasks
          ≡ₚ imap (fun k task =>
                     <["priority_score" :=
                         VNum (calculatePriorityScore (clock k) task)]> task)
                  tasks) as Hperm by apply Array_sort_perm.
  split; [exact Hperm|]. split; [by rewrite Hperm, length_imap|].
  intros t. rewrite Hperm, list_elem_of_lookup. split.
  - intros [k Hk]. apply list_lookup_imap_Some in Hk as (task & Htask & ->).
    by exists k, task.
  - intros (k & task & Htask & ->). exists k.
    apply list_lookup_imap_Some. by exists task.
Qed.

(** X11.  When no score is NaN, the snapshot is in descending order of
    score: a task never stands before one with a higher score, so the
    overdue tasks, whose score is +Infinity, stand before all others. *)
Theorem snapshot_is_sorted_by_score
  `{Host} (clock : nat -> Z) (tasks : list obj) (i j : nat) (a b : obj) :
  (forall (k : nat) (task : obj),
      tasks !! k = Some task -> calculatePriorityScore (clock k) task <> NaN) ->
  (i < j)%nat ->
  getTasksWithScores clock tasks !! i = Some a ->
  getTasksWithScores clock tasks !! j = Some b ->
  exists sa sb : number,
    a !! "priority_score" = Some (VNum sa)
    /\ b !! "priority_score" = Some (VNum sb)
    /\ num_leb sb sa = true
    /\ (sb = PosInf -> sa = PosInf).
Proof.
  intros Hscores Hij Ha Hb.
  pose proof (snapshot_scored_elem := Array_sort_perm by_score_descending).
  assert (forall t : obj,
             t ∈ getTasksWithScores clock tasks ->
             exists s : number,
               t !! "priority_score" = Some (VNum s) /\ s <> NaN) as Helem.
  { intros t. unfold getTasksWithScores.
    rewrite snapshot_scored_elem, list_elem_of_lookup.
    intros [k Hk]. apply list_lookup_imap_Some in Hk as (task & Htask & ->).
    eexists. split; [apply lookup_insert_eq | by eapply Hscores]. }
  destruct (Helem a) as (sa & Hsa & _); [by eapply list_elem_of_lookup_2|].
  destruct (Helem b) as (sb & Hsb & Hnan); [by eapply list_elem_of_lookup_2|].
  assert (not_below a b) as Hab.
  { eapply (StronglySorted_lookup not_below _ i j); [|done..].
    apply Array_sort_sorted, Forall_forall. intros t Ht.
    assert (t ∈ getTasksWithScores clock tasks) as Hin
      by (unfold getTasksWithScores; by rewrite snapshot_scored_elem).
    destruct (Helem t Hin) as (s & Hs & Hs').
    unfold score_of. by rewrite Hs. }
  unfold not_below, score_of in Hab. rewrite Hsa, Hsb in Hab. cbn in Hab.
  exists sa, sb. repeat split; try done.
  intros ->. by destruct sa.
Qed.

Lemma snapshot_is_sorted_by_score_witness :
  exists (a b : obj) (sa sb : number),
    getTasksWithScores (host := sample_host) (fun _ => 10000%Z)
      (store_created ++ store_doing) !! 0%nat = Some a
    /\ getTasksWithScores (host := sample_host) (fun _ => 10000%Z)
         (store_created ++ store_doing) !! 1%nat = Some b
    /\ a !! "priority_score" = Some (VNum sa)
    /\ b !! "priority_score" = Some (VNum sb)
    /\ a !! "status" = Some (VStr "Todo")
    /\ num_leb sb sa = true.
Proof.
  edestruct (snapshot_is_sorted_by_score (H := sample_host)
               (fun _ => 10000%Z) (store_created ++ store_doing) 0%nat 1%nat)
    as (sa & sb & Hsa & Hsb & Hle & _).
  - intros [|[|k]] task Hlook; [| |done]; by injection Hlook as <-.
  - lia.
  - reflexivity.
  - reflexivity.
  - do 2 eexists. exists sa, sb. repeat split; try done.
Defined.

(** * The rest of the client *)

(** A conflict notice, lines 124-129. *)
Record notice : Type := {
  notice_id : Z;                    (* Date.now() *)
  taskTitle : option value;
  attemptedStatus : string;
  serverStatus : option value
}.

(** The state the handlers read and set: [tasks], [pendingUpdates.current]
    and [conflicts]. *)
Record view : Type := {
  tasks_state : list obj;
  pendingUpdates_ref : Map;
  conflicts_state : list notice
}.

(** How the PATCH of [handleStatusChange] ends: with a 2xx answer, with 409
    and the server's current task, or with anything else (500, no network,
    another status), which the three last branches treat alike. *)
Inductive patch_outcome : Type :=
  | Acknowledged
  | Conflicted (serverTask : obj)
  | Failed.

(** [currentTasks.map(t => t.id === taskId ? x : t)]. *)
Definition replace_by_id (taskId : string) (x : obj) (currentTasks : list obj)
  : list obj :=
  map (fun t => if has_id taskId t then x else t) currentTasks.

(** The body of the PATCH: [{status: newStatus, version: task.version}]; an
    undefined version is left out of the JSON. *)
Definition status_request (newStatus : string) (task : obj) : obj :=
  let body : obj := {[ "status" := VStr newStatus ]} in
  match task !! "version" with
  | Some version => <["version" := version]> body
  | None => body
  end.

(** [handleStatusChange] up to its [await], lines 85-106.  The id is a
    string, as the constructor makes it.  The handler runs on the rendered
    list, which is the current one.  It returns nothing when no task has the
    id; otherwise the new state, the task it captured and the body it
    sends. *)
Definition handleStatusChange_begin
  (now : Z) (taskId newStatus : string) (st : view)
  : option (view * obj * obj) :=
  match array_find (has_id taskId) (tasks_state st) with
  | None => None
  | Some (_, task) =>
      let optimisticTask :=
        <["updated_at" := VDate (Some now)]>
          (<["status" := VStr newStatus]> task) in
      Some ({| tasks_state :=
                 replace_by_id taskId optimisticTask (tasks_state st);
               pendingUpdates_ref :=
                 Map_set (pendingUpdates_ref st) (Some (VStr taskId))
                         optimisticTask;
               conflicts_state := conflicts_state st |},
            task, status_request newStatus task)
  end.

(** [handleStatusChange] after its [await], lines 108-161, on the state
    then current; [task] is the task captured before. *)
Definition handleStatusChange_end
  (now : Z) (taskId newStatus : string) (task : obj)
  (outcome : patch_outcome) (st : view) : view :=
  let pending := Map_delete (pendingUpdates_ref st) (Some (VStr taskId)) in
  match outcome with
  | Acknowledged =>
      {| tasks_state := tasks_state st;
         pendingUpdates_ref := pending;
         conflicts_state := conflicts_state st |}
  | Conflicted serverTask =>
      let conflict :=
        {| notice_id := now;
           taskTitle := task !! "title";
           attemptedStatus := newStatus;
           serverStatus := serverTask !! "status" |} in
      {| tasks_state := replace_by_id taskId serverTask (tasks_state st);
         pendingUpdates_ref := pending;
         conflicts_state := conflicts_state st ++ [conflict] |}
  | Failed =>
      {| tasks_state := replace_by_id taskId task (tasks_state st);
         pendingUpdates_ref := pending;
         conflicts_state := conflicts_state st |}
  end.

(** The snapshot handler on the whole state. *)
Definition receive_snapshot (updatedTasks : list obj) (st : view) : view :=
  {| tasks_state := on_tasks_updated (pendingUpdates_ref st) updatedTasks;
     pendingUpdates_ref := pendingUpdates_ref st;
     conflicts_state := conflicts_state st |}.

(** [prev.filter(c => c.id !== id)]: the dismiss button and the timer of
    lines 133-135 and 210. *)
Definition dismiss (id : Z) (prev : list notice) : list notice :=
  List.filter (fun c => negb (notice_id c =? id)%Z) prev.

(** [handleDeleteTask], lines 165-182, once confirmed: the list while the
    DELETE is under way, and the task captured, [None] when no task has the
    id. *)
Definition handleDeleteTask_begin (taskId : string) (tasks : list obj)
  : list obj * option obj :=
  (List.filter (fun t => negb (has_id taskId t)) tasks,
   snd <$> array_find (has_id taskId) tasks).

(** The list after a failed DELETE, [[...currentTasks, task]]: an element
    is [None] when it is [undefined]. *)
Definition handleDeleteTask_restore (task : option obj) (currentTasks : list obj)
  : list (option obj) :=
  (Some <$> currentTasks) ++ [task].

(** ** Status changes on the client *)

Lemma has_id_same_value_zero (taskId : string) (t : obj) :
  same_value_zero (Some (VStr taskId)) (t !! "id") = has_id taskId t.
Proof.
  unfold has_id. destruct (t !! "id") as [[| | | s | |]|]; cbn; try done.
  apply eq_true_iff_eq. rewrite !String.eqb_eq. split; by intros ->.
Qed.

Lemma replace_by_id_lookup (taskId : string) (x : obj) (l : list obj) (j : nat) :
  replace_by_id taskId x l !! j
  = (fun t => if has_id taskId t then x else t) <$> l !! j.
Proof. unfold replace_by_id. apply list_lookup_fmap. Qed.

(** X12.  When a local task has the id, the optimistic step of a status
    change shows the edit at once in place of every local task with that
    id, leaves the other tasks alone, sends the version the client saw, and
    from then on every snapshot is shown with the edited task in place of
    the server's task of that id.  The edited task is the captured one with
    its status and updated_at replaced. *)
Theorem optimistic_edit_shadows_snapshots
  (now : Z) (taskId newStatus : string) (st st1 : view) (task request : obj) :
  handleStatusChange_begin now taskId newStatus st = Some (st1, task, request) ->
  exists optimisticTask : obj,
    optimisticTask !! "status" = Some (VStr newStatus)
    /\ optimisticTask !! "updated_at" = Some (VDate (Some now))
    /\ (forall k : string,
          k <> "status" -> k <> "updated_at" ->
          optimisticTask !! k = task !! k)
    /\ (forall (j : nat) (t : obj),
          tasks_state st !! j = Some t ->
          tasks_state st1 !! j
          = Some (if has_id taskId t then optimisticTask else t))
    /\ request !! "status" = Some (VStr newStatus)
    /\ request !! "version" = task !! "version"
    /\ (forall (updatedTasks : list obj) (i : nat) (serverTask : obj),
          updatedTasks !! i = Some serverTask ->
          has_id taskId serverTask = true ->
          tasks_state (receive_snapshot updatedTasks st1) !! i
          = Some optimisticTask).
Proof.
  unfold handleStatusChange_begin.
  destruct (array_find (has_id taskId) (tasks_state st)) as [[i0 found]|];
    [|done].
  intros [= <- <- <-].
  exists (<["updated_at" := VDate (Some now)]>
            (<["status" := VStr newStatus]> found)).
  cbn [tasks_state pendingUpdates_ref receive_snapshot].
  split; [by rewrite lookup_insert_ne, lookup_insert_eq|].
  split; [by rewrite lookup_insert_eq|].
  split; [intros k Hs Hu; by rewrite !lookup_insert_ne|].
  split; [intros j t Hj; by rewrite replace_by_id_lookup, Hj|].
  split; [|split].
  - unfold status_request. destruct (found !! "version");
      [by rewrite lookup_insert_ne, lookup_singleton_eq
      | by rewrite lookup_singleton_eq].
  - unfold status_request. destruct (found !! "version");
      [by rewrite lookup_insert_eq | by rewrite lookup_singleton_ne].
  - intros updatedTasks i serverTask Hlook Hid.
    apply (snapshot_after_set _ _ _ _ _ serverTask); [|done].
    by rewrite has_id_same_value_zero.
Qed.

Definition sample_view : view :=
  {| tasks_state := [server_t2; server_t1];
     pendingUpdates_ref := [];
     conflicts_state := [] |}.

Lemma optimistic_edit_shadows_snapshots_witness :
  exists (st1 : view) (optimisticTask : obj),
    handleStatusChange_begin 7000 "t1" "Doing" sample_view
    = Some (st1, server_t1, status_request "Doing" server_t1)
    /\ tasks_state st1 = [server_t2; optimisticTask]
    /\ tasks_state (receive_snapshot [server_t1; server_t2] st1)
       = [optimisticTask; server_t2]
    /\ optimisticTask !! "status" = Some (VStr "Doing").
Proof.
  destruct (handleStatusChange_begin 7000 "t1" "Doing" sample_view)
    as [[[st1 task] request]|] eqn:Hbegin; [|done].
  destruct (optimistic_edit_shadows_snapshots
              7000 "t1" "Doing" sample_view st1 task request Hbegin)
    as (optimisticTask & Hstatus & _).
  injection Hbegin as <- <- <-.
  eexists _, _. repeat split; reflexivity.
Defined.

(** X13.  However the PATCH ends (acknowledged, conflict or failure), the
    handler removes the shadow of the task: [pendingUpdates] has no entry
    for the id afterwards, and the next snapshot shows the server's task of
    that id as the server sent it. *)
Theorem every_outcome_clears_the_shadow
  (now : Z) (taskId newStatus : string) (task : obj)
  (outcome : patch_outcome) (st : view)
  (updatedTasks : list obj) (i : nat) (serverTask : obj) :
  unique_keys (pendingUpdates_ref st) ->
  updatedTasks !! i = Some serverTask ->
  has_id taskId serverTask = true ->
  let st' := handleStatusChange_end now taskId newStatus task outcome st in
  Map_get (pendingUpdates_ref st') (Some (VStr taskId)) = None
  /\ unique_keys (pendingUpdates_ref st')
  /\ tasks_state (receive_snapshot updatedTasks st') !! i = Some serverTask.
Proof.
  intros Huniq Hlook Hid st'.
  assert (pendingUpdates_ref st'
          = Map_delete (pendingUpdates_ref st) (Some (VStr taskId))) as Hpend
    by by destruct outcome.
  unfold receive_snapshot. cbn [tasks_state]. rewrite Hpend.
  split; [|split].
  - apply Map_get_delete; [done|]. cbn. apply String.eqb_refl.
  - by apply Map_delete_unique.
  - apply snapshot_after_delete; [done | | done].
    by rewrite has_id_same_value_zero.
Qed.

Lemma every_outcome_clears_the_shadow_witness :
  tasks_state
    (receive_snapshot [server_t1; server_t2]
       (handleStatusChange_end 8000 "t1" "Doing" server_t1 Acknowledged
          {| tasks_state := [server_t2; optimistic_t1];
             pendingUpdates_ref := pending_t1;
             conflicts_state := [] |})) !! 0%nat
  = Some server_t1.
Proof.
  apply (every_outcome_clears_the_shadow 8000 "t1" "Doing" server_t1
           Acknowledged
           {| tasks_state := [server_t2; optimistic_t1];
              pendingUpdates_ref := pending_t1;
              conflicts_state := [] |}
           [server_t1; server_t2] 0%nat server_t1).
  - apply Map_set_unique, unique_nil.
  - reflexivity.
  - reflexivity.
Defined.

(** X14.  A failed PATCH (500, no network, any other error) puts the
    captured task back: when every local task with the id is the captured
    one, as when ids are unique, and no snapshot came in between, the list
    after the failure is the list before the edit. *)
Theorem failed_status_change_restores_the_list
  (now now' : Z) (taskId newStatus : string) (st st1 : view)
  (task request : obj) :
  handleStatusChange_begin now taskId newStatus st = Some (st1, task, request) ->
  (forall (j : nat) (t : obj),
      tasks_state st !! j = Some t -> has_id taskId t = true -> t = task) ->
  tasks_state (handleStatusChange_end now' taskId newStatus task Failed st1)
  = tasks_state st
  /\ conflicts_state
       (handleStatusChange_end now' taskId newStatus task Failed st1)
     = conflicts_state st.
Proof.
  unfold handleStatusChange_begin.
  destruct (array_find (has_id taskId) (tasks_state st)) as [[i0 found]|]
    eqn:Hfind; [|done].
  intros [= <- <- <-] Honly. unfold handleStatusChange_end.
  cbn [tasks_state pendingUpdates_ref conflicts_state]. split; [|done].
  apply array_find_Some in Hfind as (_ & Hid & _).
  apply list_eq. intros j. rewrite !replace_by_id_lookup.
  destruct (tasks_state st !! j) as [t|] eqn:Hj; cbn; [|done].
  destruct (has_id taskId t) eqn:Ht.
  - assert (has_id taskId
              (<["updated_at" := VDate (Some now)]>
                 (<["status" := VStr newStatus]> found)) = true) as ->.
    { unfold has_id in *. by rewrite !lookup_insert_ne. }
    f_equal. symmetry. by eapply Honly.
  - by rewrite Ht.
Qed.

Lemma failed_status_change_restores_the_list_witness :
  exists st1 : view,
    handleStatusChange_begin 7000 "t1" "Doing" sample_view
    = Some (st1, server_t1, status_request "Doing" server_t1)
    /\ tasks_state (handleStatusChange_end 7500 "t1" "Doing" server_t1 Failed st1)
       = [server_t2; server_t1].
Proof.
  destruct (handleStatusChange_begin 7000 "t1" "Doing" sample_view)
    as [[[st1 task] request]|] eqn:Hbegin; [|done].
  pose proof Hbegin as Hrun. injection Hrun as <- <- <-.
  eexists. split; [reflexivity|].
  eapply (failed_status_change_restores_the_list 7000 7500 "t1" "Doing"
            sample_view); [exact Hbegin|].
  intros [|[|j]] t Hj Hid; [| |done].
  - by injection Hj as <-.
  - by injection Hj as <-.
Defined.

(** ** What crosses the wire *)

(** A value after [JSON.stringify] and [JSON.parse], as [res.json], the
    socket and axios carry it: a Number that is not finite becomes [null], a
    Date becomes its ISO string, or [null] when it is invalid.  The ISO
    string of a time value is the engine's. *)
Definition JSON_value (toISOString : Z -> string) (v : value) : value :=
  match v with
  | VNum (Fin q) => VNum (Fin q)
  | VNum _ => VNull
  | VDate (Some tv) => VStr (toISOString tv)
  | VDate None => VNull
  | other => other
  end.

Definition JSON_object (toISOString : Z -> string) (t : obj) : obj :=
  JSON_value toISOString <$> t.

(** The replacement a 409 makes in the local list. *)
Lemma conflict_replaces_by_id
  (now : Z) (taskId newStatus : string) (task serverTask : obj) (st : view)
  (j : nat) (t : obj) :
  tasks_state st !! j = Some t ->
  tasks_state
    (handleStatusChange_end now taskId newStatus task (Conflicted serverTask) st)
    !! j
  = Some (if has_id taskId t then serverTask else t).
Proof.
  intros Hj. unfold handleStatusChange_end. cbn [tasks_state].
  by rewrite replace_by_id_lookup, Hj.
Qed.

(** X15.  A status change made on a stale copy converges to the server:
    when the version the client captured differs from the stored one, the
    server answers the client's PATCH with 409 and changes nothing, and
    after the client has handled that answer every local task with the id
    is the stored task as JSON carries it, with the stored version, and one
    notice has been added that names the attempted status and the status
    the server has. *)
Theorem stale_status_change_converges
  `{Host} (toISOString : Z -> string)
  (now_server now_client : Z) (tasks : list obj) (taskId newStatus : string)
  (captured stored : obj) (i : nat) (q : Q) (st : view) :
  array_find (has_id taskId) tasks = Some (i, stored) ->
  stored !! "version" = Some (VNum (Fin q)) ->
  is_Some (captured !! "version") ->
  strict_eq (captured !! "version") (stored !! "version") = false ->
  exists serverTask : obj,
    patch_task now_server tasks taskId (status_request newStatus captured)
    = (tasks, {| status := 409;
                 json := JConflict "Version conflict"
                                   (stored !! "version") stored |})
    /\ serverTask = JSON_object toISOString stored
    /\ serverTask !! "version" = Some (VNum (Fin q))
    /\ (forall (j : nat) (t : obj),
          tasks_state st !! j = Some t ->
          tasks_state
            (handleStatusChange_end now_client taskId newStatus captured
                                    (Conflicted serverTask) st) !! j
          = Some (if has_id taskId t then serverTask else t))
    /\ conflicts_state
         (handleStatusChange_end now_client taskId newStatus captured
                                 (Conflicted serverTask) st)
       = conflicts_state st
         ++ [{| notice_id := now_client;
                taskTitle := captured !! "title";
                attemptedStatus := newStatus;
                serverStatus := JSON_value toISOString <$> stored !! "status" |}].
Proof.
  intros Hfind Hq [cv Hcv] Hstale.
  exists (JSON_object toISOString stored).
  split; [|split; [done|split; [|split]]].
  - unfold patch_task. rewrite Hfind.
    assert (version_conflict (status_request newStatus captured) stored = true)
      as ->; [|done].
    apply version_conflict_true. exists cv. split; [|by rewrite <- Hcv].
    unfold status_request. rewrite Hcv. apply lookup_insert_eq.
  - unfold JSON_object. by rewrite lookup_fmap, Hq.
  - intros j t Hj. by apply conflict_replaces_by_id.
  - unfold handleStatusChange_end, JSON_object. cbn [conflicts_state].
    by rewrite lookup_fmap.
Qed.

Lemma stale_status_change_converges_witness :
  exists serverTask : obj,
    status (patch_task (host := sample_host) 9000 store_doing sample_id
                       (status_request "Doing"
                          (Task (host := sample_host) sample_env (VStr "A")
                                (VStr "hello world")))).2 = 409
    /\ serverTask !! "version" = Some (VNum (Fin (0 + 1)))
    /\ serverTask !! "status" = Some (VStr "Doing").
Proof.
  destruct (stale_status_change_converges (H := sample_host)
              (fun _ => "1970-01-01T00:00:05.000Z") 9000 9100 store_doing
              sample_id "Doing"
              (Task (host := sample_host) sample_env (VStr "A")
                    (VStr "hello world"))
              (apply_patch (host := sample_host) 5000 move_to_doing
                 (Task (host := sample_host) sample_env (VStr "A")
                       (VStr "hello world")))
              0%nat (0 + 1)%Q sample_view)
    as (serverTask & Hanswer & -> & Hversion & _); try reflexivity.
  - by eexists.
  - eexists. split; [by rewrite Hanswer|]. split; [exact Hversion | reflexivity].
Defined.

(** ** Deleting on the client *)

Lemma filter_other_ids (taskId : string) (tasks : list obj) (i : nat) (task : obj) :
  tasks !! i = Some task ->
  has_id taskId task = true ->
  (forall (j : nat) (t : obj),
      j <> i -> tasks !! j = Some t -> has_id taskId t = false) ->
  List.filter (fun t => negb (has_id taskId t)) tasks = delete i tasks.
Proof.
  revert i. induction tasks as [|x l IH]; intros i Hlook Hid Hothers; [done|].
  destruct i as [|i]; cbn in *.
  - injection Hlook as ->. rewrite Hid. cbn.
    apply forallb_filter_id, forallb_forall. intros t Hin.
    apply list_elem_of_In, list_elem_of_lookup in Hin as [j Hj].
    by rewrite (Hothers (S j) t).
  - rewrite (Hothers 0%nat x) by done. cbn. f_equal.
    apply IH; [done | done |].
    intros j t Hne Hj. apply (Hothers (S j)); [lia | done].
Qed.

(** X16.  Deleting a task whose id is unique removes it from the list at
    once; if the DELETE then fails, the task comes back as the last element
    and not at its place: the list is as before only when the task was the
    last one. *)
Theorem failed_delete_puts_the_task_last
  (taskId : string) (tasks : list obj) (i : nat) (task : obj) :
  tasks !! i = Some task ->
  has_id taskId task = true ->
  (forall (j : nat) (t : obj),
      j <> i -> tasks !! j = Some t -> has_id taskId t = false) ->
  handleDeleteTask_begin taskId tasks = (delete i tasks, Some task)
  /\ handleDeleteTask_restore (Some task) (delete i tasks)
     = Some <$> (delete i tasks ++ [task])
  /\ (S i = length tasks -> delete i tasks ++ [task] = tasks)
  /\ (S i < length tasks -> delete i tasks ++ [task] <> tasks)%nat.
Proof.
  intros Hlook Hid Hothers.
  assert (array_find (has_id taskId) tasks = Some (i, task)) as Hfind.
  { apply array_find_first; [done | done |].
    intros k y Hk. apply Hothers. lia. }
  split; [|split; [|split]].
  - unfold handleDeleteTask_begin.
    by rewrite (filter_other_ids taskId tasks i task), Hfind.
  - unfold handleDeleteTask_restore. by rewrite fmap_app.
  - intros Hlast. rewrite delete_take_drop.
    rewrite (drop_ge tasks (S i)) by lia. rewrite app_nil_r.
    rewrite <- (take_drop i tasks) at 2. f_equal.
    apply list_eq. intros [|k].
    + by rewrite lookup_drop, Nat.add_0_r.
    + rewrite lookup_drop. cbn. symmetry. apply lookup_ge_None. lia.
  - intros Hmid Hsame.
    destruct (lookup_lt_is_Some_2 tasks (S i)) as [next Hnext]; [lia|].
    assert ((delete i tasks ++ [task]) !! i = Some next) as Hshifted.
    { rewrite lookup_app_l by (rewrite length_delete by eauto; lia).
      by rewrite list_lookup_delete_ge. }
    rewrite Hsame, Hlook in Hshifted. injection Hshifted as <-.
    by rewrite (Hothers (S i) task) in Hid by (lia || done).
Qed.

Lemma failed_delete_puts_the_task_last_witness :
  handleDeleteTask_restore
    (handleDeleteTask_begin "t2" [server_t2; server_t1]).2
    (handleDeleteTask_begin "t2" [server_t2; server_t1]).1
  = [Some server_t1; Some server_t2].
Proof.
  destruct (failed_delete_puts_the_task_last "t2" [server_t2; server_t1]
              0%nat server_t2 eq_refl eq_refl) as (Hbegin & Hrestore & _).
  - intros [|[|j]] t Hne Hj; [done | by injection Hj as <- | done].
  - rewrite Hbegin. cbn [fst snd]. rewrite Hrestore. reflexivity.
Defined.

(** X17.  A failed DELETE of an id that no local task has leaves the list
    with one more element, [undefined], at its end: the handler restores
    whatever [find] returned. *)
Theorem failed_delete_of_unknown_id_appends_undefined
  (taskId : string) (tasks : list obj) :
  (forall (j : nat) (t : obj), tasks !! j = Some t -> has_id taskId t = false) ->
  handleDeleteTask_begin taskId tasks = (tasks, None)
  /\ handleDeleteTask_restore None tasks = (Some <$> tasks) ++ [None]
  /\ last (handleDeleteTask_restore
             (handleDeleteTask_begin taskId tasks).2
             (handleDeleteTask_begin taskId tasks).1) = Some None.
Proof.
  intros Hnone.
  assert (handleDeleteTask_begin taskId tasks = (tasks, None)) as Hbegin.
  { unfold handleDeleteTask_begin. f_equal.
    - apply forallb_filter_id, forallb_forall. intros t Hin.
      apply list_elem_of_In, list_elem_of_lookup in Hin as [j Hj].
      by rewrite (Hnone j t).
    - assert (array_find (has_id taskId) tasks = None) as ->; [|done].
      by apply array_find_None, Forall_lookup. }
  split; [done|]. split; [done|]. rewrite Hbegin. cbn.
  unfold handleDeleteTask_restore. apply last_snoc.
Qed.

Lemma failed_delete_of_unknown_id_appends_undefined_witness :
  handleDeleteTask_restore
    (handleDeleteTask_begin "t9" [server_t2; server_t1]).2
    (handleDeleteTask_begin "t9" [server_t2; server_t1]).1
  = [Some server_t2; Some server_t1; None].
Proof.
  destruct (failed_delete_of_unknown_id_appends_undefined
              "t9" [server_t2; server_t1]) as (Hbegin & Hrestore & _).
  - intros [|[|j]] t Hj; [| |done]; by injection Hj as <-.
  - rewrite Hbegin. exact Hrestore.
Defined.

(** ** The card, lines 310-320 *)

(** [Math.min(a, b)]. *)
Definition Math_min (a b : number) : number :=
  match a, b with
  | NaN, _ | _, NaN => NaN
  | _, _ => if num_leb a b then a else b
  end.

(** [task.priority_score || 0]. *)
Definition card_priorityScore (task : obj) : value :=
  js_or (task !! "priority_score") (VNum (Fin 0)).

(** [priorityScore > 0.0001]. *)
Definition card_isHighPriority `{Host} (task : obj) : bool :=
  num_gtb (ToNumber (Some (card_priorityScore task))) (Fin (1 # 10000)).

(** The angle of the [skewX] transform, [None] for ['none']. *)
Definition card_skew `{Host} (task : obj) : option number :=
  if card_isHighPriority task then
    Some (Math_min (num_mul (ToNumber (Some (card_priorityScore task)))
                            (Fin 100000))
                   (Fin 5))
  else None.

(** X18.  A card is skewed by exactly 5 degrees or not at all: a score above
    0.0001 times 100000 is above 5, so [Math.min] always returns 5. *)
Theorem card_skew_is_five_or_none `{Host} (task : obj) :
  (card_isHighPriority task = true -> card_skew task = Some (Fin 5))
  /\ (card_isHighPriority task = false -> card_skew task = None).
Proof.
  unfold card_skew. split; intros Hhigh; rewrite Hhigh; [|done].
  unfold card_isHighPriority in Hhigh. f_equal.
  destruct (ToNumber (Some (card_priorityScore task))) as [s| | |];
    try done.
  cbn in Hhigh. apply negb_true_iff in Hhigh. cbn.
  destruct (Qle_bool (s * 100000) 5) eqn:Hle; [|done].
  apply Qle_bool_iff in Hle.
  destruct (Qlt_le_dec (1 # 10000) s) as [Hlt|Hge].
  - lra.
  - apply Qle_bool_iff in Hge. congruence.
Qed.

(** X19.  An overdue task looks calm on the board.  Its score is +Infinity
    on the server, which JSON carries as [null]; the card reads that as the
    score 0, so the task is not marked high priority and is not skewed. *)
Theorem overdue_task_shows_score_zero
  `{Host} (toISOString : Z -> string) (now d : Z) (task : obj) :
  getTime (task !! "deadline") = num_of_Z d ->
  (d <= now)%Z ->
  let sent :=
    JSON_object toISOString
      (<["priority_score" := VNum (calculatePriorityScore now task)]> task) in
  calculatePriorityScore now task = PosInf
  /\ sent !! "priority_score" = Some VNull
  /\ card_priorityScore sent = VNum (Fin 0)
  /\ card_isHighPriority sent = false
  /\ card_skew sent = None.
Proof.
  intros Hd Hle sent.
  assert (calculatePriorityScore now task = PosInf) as Hscore.
  { unfold calculatePriorityScore. rewrite Hd, num_sub_of_Z.
    cbn -[Qle_bool Qplus Qopp inject_Z]. rewrite Qle_bool_diff_0.
    by destruct (Z.leb_spec d now); [|lia]. }
  assert (sent !! "priority_score" = Some VNull) as Hsent.
  { unfold sent, JSON_object. by rewrite lookup_fmap, lookup_insert_eq, Hscore. }
  assert (card_priorityScore sent = VNum (Fin 0)) as Hcard
    by (unfold card_priorityScore; by rewrite Hsent).
  assert (card_isHighPriority sent = false) as Hhigh
    by (unfold card_isHighPriority; by rewrite Hcard).
  repeat split; try done. unfold card_skew. by rewrite Hhigh.
Qed.

Lemma overdue_task_shows_score_zero_witness :
  exists task : obj,
    store_doing !! 0%nat = Some task
    /\ calculatePriorityScore (host := sample_host) 604800000 task = PosInf
    /\ card_isHighPriority (H := sample_host)
         (JSON_object (fun _ => "1970-01-08T00:00:00.000Z")
            (<["priority_score" :=
                 VNum (calculatePriorityScore (host := sample_host)
                         604800000 task)]> task))
       = false.
Proof.
  exists (apply_patch (host := sample_host) 5000 move_to_doing
            (Task (host := sample_host) sample_env (VStr "A")
                  (VStr "hello world"))).
  split; [reflexivity|].
  destruct (overdue_task_shows_score_zero (H := sample_host)
              (fun _ => "1970-01-08T00:00:00.000Z") 604800000 604800000
              (apply_patch (host := sample_host) 5000 move_to_doing
                 (Task (host := sample_host) sample_env (VStr "A")
                       (VStr "hello world"))))
    as (Hscore & _ & _ & Hcalm & _); [reflexivity | lia |].
  split; [exact Hscore | exact Hcalm].
Defined.

(** ** Creating on the client, lines 60-82 *)

(** What [handleCreateTask] posts: nothing when the trimmed title is empty,
    otherwise the form's two fields as they are.  [trim] is the engine's
    [String.prototype.trim]. *)
Definition handleCreateTask
  (trim : string -> string) (title description : string) : option obj :=
  if negb (truthy (Some (VStr (trim title)))) then None
  else Some {[ "title" := VStr title; "description" := VStr description ]}.

(** X20.  Whatever the form posts, the server accepts: since trimming the
    empty string leaves it empty, a posted title is not empty, and the
    server answers 201 and stores title and description exactly as typed,
    the title with any surrounding blanks. *)
Theorem form_post_is_accepted
  `{Host} (trim : string -> string) (title description : string)
  (body : obj) (e : ctor_env) (tasks : list obj) :
  trim "" = "" ->
  handleCreateTask trim title description = Some body ->
  exists task : obj,
    post_tasks e tasks body
    = (tasks ++ [task], {| status := 201; json := JTask task |})
    /\ task !! "title" = Some (VStr title)
    /\ task !! "description" = Some (VStr description).
Proof.
  intros Htrim. unfold handleCreateTask.
  destruct (truthy (Some (VStr (trim title)))) eqn:Hsend; [|done].
  intros [= <-].
  assert (title <> "") as Hne.
  { intros ->. rewrite Htrim in Hsend. done. }
  assert (truthy (Some (VStr title)) = true) as Htruthy.
  { cbn. apply negb_true_iff. by apply String.eqb_neq. }
  unfold post_tasks.
  assert (({[ "title" := VStr title; "description" := VStr description ]} : obj)
            !! "title" = Some (VStr title)) as -> by done.
  assert (({[ "title" := VStr title; "description" := VStr description ]} : obj)
            !! "description" = Some (VStr description)) as -> by done.
  rewrite Htruthy. cbn [negb].
  eexists. split; [reflexivity|].
  destruct (Task_fields e (VStr title)
              (js_or (Some (VStr description)) (VStr "")))
    as (Ht & Hd & _).
  split; [done|]. rewrite Hd. unfold js_or. cbn.
  destruct (String.eqb_spec description ""); cbn; by subst.
Qed.

Lemma form_post_is_accepted_witness :
  exists (body task : obj),
    handleCreateTask (fun s => s) " A " "" = Some body
    /\ post_tasks (host := sample_host) sample_env [] body
       = ([task], {| status := 201; json := JTask task |})
    /\ task !! "title" = Some (VStr " A ").
Proof.
  destruct (form_post_is_accepted (H := sample_host) (fun s => s) " A " ""
              {[ "title" := VStr " A "; "description" := VStr "" ]}
              sample_env [] eq_refl eq_refl) as (task & Hrun & Htitle & _).
  eexists _, task. split; [reflexivity|]. split; [exact Hrun | exact Htitle].
Defined.

(** ** Conflict notices *)

(** X21.  Notices are told apart by the clock reading they were created
    at: two conflicts handled within the same millisecond share their id,
    and dismissing either, by the button or by its timer, removes both,
    along with any older notice of that reading. *)
Theorem same_millisecond_notices_go_together
  (now : Z) (id1 id2 status1 status2 : string) (task1 task2 server1 server2 : obj)
  (st : view) :
  let st' :=
    handleStatusChange_end now id2 status2 task2 (Conflicted server2)
      (handleStatusChange_end now id1 status1 task1 (Conflicted server1) st) in
  length (conflicts_state st') = S (S (length (conflicts_state st)))
  /\ dismiss now (conflicts_state st') = dismiss now (conflicts_state st)
  /\ (forall c : notice,
        c ∈ dismiss now (conflicts_state st') ->
        c ∈ conflicts_state st /\ notice_id c <> now).
Proof.
  intros st'. unfold st', handleStatusChange_end.
  cbn [conflicts_state tasks_state pendingUpdates_ref].
  split; [rewrite !length_app; cbn; lia|].
  assert (dismiss now
            ((conflicts_state st
              ++ [{| notice_id := now; taskTitle := task1 !! "title";
                     attemptedStatus := status1;
                     serverStatus := server1 !! "status" |}])
             ++ [{| notice_id := now; taskTitle := task2 !! "title";
                    attemptedStatus := status2;
                    serverStatus := server2 !! "status" |}])
          = dismiss now (conflicts_state st)) as ->.
  { unfold dismiss. rewrite !List.filter_app. cbn. rewrite Z.eqb_refl. cbn.
    by rewrite !app_nil_r. }
  split; [done|]. intros c Hin. unfold dismiss in Hin.
  apply list_elem_of_In, filter_In in Hin as [Hin Hid].
  split; [by apply list_elem_of_In|].
  apply negb_true_iff, Z.eqb_neq in Hid. done.
Qed.

(** ** The string operators *)

Lemma append_cons (c : ascii) (a b : string) :
  String c a +:+ b = String c (a +:+ b).
Proof. reflexivity. Qed.

Lemma chars_cons (c : ascii) (s : string) : chars (String c s) = c :: chars s.
Proof. reflexivity. Qed.

Lemma chars_app (a b : string) : chars (a +:+ b) = chars a ++ chars b.
Proof.
  induction a as [|c a IH]; [done|].
  by rewrite append_cons, !chars_cons, IH.
Qed.

Lemma append_empty_r (s : string) : s +:+ "" = s.
Proof. induction s as [|c s IH]; [done|]. by rewrite append_cons, IH. Qed.

Lemma append_assoc (a b c : string) : (a +:+ b) +:+ c = a +:+ (b +:+ c).
Proof.
  induction a as [|x a IH]; [done|]. by rewrite !append_cons, IH.
Qed.

Lemma string_length_chars (s : string) : String.length s = length (chars s).
Proof.
  induction s as [|c s IH]; [done|]. rewrite chars_cons. cbn. by rewrite IH.
Qed.

(** No space among the characters. *)
Definition spaceless (cs : list ascii) : Prop :=
  Forall (fun c => c <> " "%char) cs.

Lemma split_spaces_cons (cs : list ascii) (word : string) :
  exists (first : string) (others : list string),
    split_spaces cs word = first :: others.
Proof.
  revert word. induction cs as [|c cs IH]; intros word; cbn; [by eauto|].
  destruct (Ascii.eqb c " "); [by eauto | apply IH].
Qed.

Lemma concat_split_spaces (cs : list ascii) (word : string) :
  String.concat " " (split_spaces cs word)
  = word +:+ String.string_of_list_ascii cs.
Proof.
  revert word. induction cs as [|c cs IH]; intros word; cbn [split_spaces].
  - cbn. by rewrite append_empty_r.
  - destruct (Ascii.eqb_spec c " ") as [->|Hc].
    + pose proof (IH "") as Hrest.
      destruct (split_spaces_cons cs "") as (first & others & Hsplit).
      rewrite Hsplit in *.
      change (String.concat " " (word :: first :: others))
        with (word +:+ " " +:+ String.concat " " (first :: others)).
      by rewrite Hrest.
    + rewrite IH, append_assoc. reflexivity.
Qed.

Lemma split_spaces_spaceless (cs : list ascii) (word : string) :
  spaceless cs ->
  split_spaces cs word = [word +:+ String.string_of_list_ascii cs].
Proof.
  revert word. induction cs as [|c cs IH]; intros word Hcs; cbn.
  - by rewrite append_empty_r.
  - apply Forall_cons in Hcs as [Hc Hcs].
    destruct (Ascii.eqb_spec c " ") as [->|_]; [done|].
    rewrite IH by done. by rewrite append_assoc.
Qed.

Lemma split_spaces_at_space (cs rest : list ascii) (word : string) :
  spaceless cs ->
  split_spaces (cs ++ " "%char :: rest) word
  = (word +:+ String.string_of_list_ascii cs) :: split_spaces rest "".
Proof.
  revert word. induction cs as [|c cs IH]; intros word Hcs; cbn.
  - by rewrite append_empty_r.
  - apply Forall_cons in Hcs as [Hc Hcs].
    destruct (Ascii.eqb_spec c " ") as [->|_]; [done|].
    rewrite IH by done. by rewrite append_assoc.
Qed.

(** Splitting what joining with spaces built gives the words back. *)
Lemma split_spaces_concat (first : string) (others : list string) :
  Forall (fun w => spaceless (chars w)) (first :: others) ->
  split_spaces (chars (String.concat " " (first :: others))) ""
  = first :: others.
Proof.
  revert first. induction others as [|second others IH]; intros first Hall.
  - apply Forall_cons in Hall as [Hfirst _]. cbn [String.concat].
    rewrite split_spaces_spaceless by done. cbn.
    unfold chars. by rewrite String.string_of_list_ascii_of_string.
  - apply Forall_cons in Hall as [Hfirst Hrest].
    change (String.concat " " (first :: second :: others))
      with (first +:+ " " +:+ String.concat " " (second :: others)).
    rewrite chars_app.
    change (chars (" " +:+ String.concat " " (second :: others)))
      with (" "%char :: chars (String.concat " " (second :: others))).
    rewrite split_spaces_at_space by done. rewrite IH by done. cbn.
    unfold chars. by rewrite String.string_of_list_ascii_of_string.
Qed.

Lemma split_spaces_words_spaceless (cs : list ascii) (word : string) :
  spaceless (chars word) ->
  Forall (fun w => spaceless (chars w)) (split_spaces cs word).
Proof.
  revert word. induction cs as [|c cs IH]; intros word Hword; cbn.
  - by constructor.
  - destruct (Ascii.eqb_spec c " ") as [->|Hc].
    + constructor; [done|]. apply IH. constructor.
    + apply IH. rewrite chars_app. apply Forall_app. split; [done|].
      by repeat constructor.
Qed.

(** X22.  Reversing the order of the words undoes itself: applied twice,
    the fifth operator gives the description back, blanks included. *)
Theorem word_reversal_undoes_itself (desc : string) :
  corrupt_words (corrupt_words desc) = desc.
Proof.
  unfold corrupt_words.
  pose proof (split_spaces_words_spaceless (chars desc) "") as Hwords.
  specialize (Hwords (List.Forall_nil _)).
  destruct (rev (split_spaces (chars desc) "")) as [|first others] eqn:Hrev.
  { destruct (split_spaces_cons (chars desc) "") as (w & ws & Hsplit).
    rewrite Hsplit in Hrev. apply (f_equal length) in Hrev.
    rewrite length_rev in Hrev. done. }
  rewrite split_spaces_concat.
  - rewrite <- Hrev, rev_involutive, concat_split_spaces. cbn.
    unfold chars. apply String.string_of_list_ascii_of_string.
  - rewrite <- Hrev. by apply Forall_rev.
Qed.

(** The characters of a masked and of a blacked-out description. *)
Lemma chars_corrupt_mask (draws : nat -> Q) (desc : string) :
  chars (corrupt_mask draws desc)
  = imap (fun k c =>
            if num_gtb (Fin (draws k)) (Fin (7 # 10)) then "?"%char else c)
         (chars desc).
Proof.
  unfold corrupt_mask, chars. apply String.list_ascii_of_string_of_list_ascii.
Qed.

Lemma chars_inj (a b : string) : chars a = chars b -> a = b.
Proof.
  unfold chars. intros Heq.
  rewrite <- (String.string_of_list_ascii_of_string a).
  rewrite <- (String.string_of_list_ascii_of_string b). by rewrite Heq.
Qed.

Lemma chars_join_chars (l : list string) :
  chars (join_chars l) = mjoin (chars <$> l).
Proof.
  unfold join_chars. induction l as [|x [|y l] IH].
  - done.
  - cbn. by rewrite app_nil_r.
  - change (String.concat "" (x :: y :: l))
      with (x +:+ String.concat "" (y :: l)).
    rewrite chars_app, IH. reflexivity.
Qed.

(** What the second operator writes for one character. *)
Definition blackout (c : ascii) : list ascii :=
  chars (if is_vowel c then "█" else String c EmptyString).

Lemma chars_corrupt_vowels (desc : string) :
  chars (corrupt_vowels desc) = mjoin (blackout <$> chars desc).
Proof.
  unfold corrupt_vowels. rewrite chars_join_chars. f_equal.
  rewrite <- list_fmap_compose. reflexivity.
Qed.

Lemma blackout_has_no_vowel (c : ascii) :
  Forall (fun x => is_vowel x = false) (blackout c).
Proof.
  unfold blackout. destruct (is_vowel c) eqn:Hc.
  - by repeat constructor.
  - by repeat constructor.
Qed.

(** X23.  Masking keeps the length of the description and every character
    is either kept or replaced by a question mark, as its own draw decides;
    when no draw is above 0.7 the description is unchanged. *)
Theorem masking_keeps_length (draws : nat -> Q) (desc : string) :
  String.length (corrupt_mask draws desc) = String.length desc
  /\ (forall (k : nat) (c : ascii),
        chars desc !! k = Some c ->
        chars (corrupt_mask draws desc) !! k
        = Some (if Qle_bool (draws k) (7 # 10) then c else "?"%char))
  /\ ((forall k : nat, (draws k <= 7 # 10)%Q) -> corrupt_mask draws desc = desc).
Proof.
  split; [|split].
  - by rewrite !string_length_chars, chars_corrupt_mask, length_imap.
  - intros k c Hk. rewrite chars_corrupt_mask, list_lookup_imap, Hk. cbn.
    by destruct (Qle_bool (draws k) (7 # 10)).
  - intros Hlow. apply chars_inj. rewrite chars_corrupt_mask.
    apply list_eq. intros k. rewrite list_lookup_imap.
    destruct (chars desc !! k) as [c|]; [|done]. cbn.
    by rewrite (proj2 (Qle_bool_iff _ _) (Hlow k)).
Qed.

(** X24.  The vowel blackout leaves no vowel of either case behind, does
    not touch a description that has none, and so changes nothing when it
    is applied a second time. *)
Theorem vowel_blackout_leaves_no_vowel (desc : string) :
  Forall (fun c => is_vowel c = false) (chars (corrupt_vowels desc))
  /\ (Forall (fun c => is_vowel c = false) (chars desc) ->
      corrupt_vowels desc = desc)
  /\ corrupt_vowels (corrupt_vowels desc) = corrupt_vowels desc.
Proof.
  assert (forall s : string,
             Forall (fun c => is_vowel c = false) (chars (corrupt_vowels s)))
    as Hnone.
  { intros s. rewrite chars_corrupt_vowels.
    induction (chars s) as [|c cs IH]; [constructor|].
    rewrite fmap_cons.
    change (mjoin (blackout c :: (blackout <$> cs)))
      with (blackout c ++ mjoin (blackout <$> cs)).
    apply Forall_app. split; [apply blackout_has_no_vowel | exact IH]. }
  assert (forall s : string,
             Forall (fun c => is_vowel c = false) (chars s) ->
             corrupt_vowels s = s) as Hsame.
  { intros s Hs. apply chars_inj. rewrite chars_corrupt_vowels.
    induction Hs as [|c cs Hc _ IH]; [done|].
    assert (blackout c = [c]) as Hkept
      by (unfold blackout; by rewrite Hc).
    rewrite fmap_cons.
    change (mjoin (blackout c :: (blackout <$> cs)))
      with (blackout c ++ mjoin (blackout <$> cs)).
    by rewrite Hkept, IH. }
  split; [apply Hnone|]. split; [apply Hsame|]. apply Hsame, Hnone.
Qed.

Lemma chars_nonempty (s : string) : chars s <> [] -> s <> "".
Proof. by intros Hne ->. Qed.

Lemma corrupt_words_nonempty (desc : string) :
  desc <> "" -> corrupt_words desc <> "".
Proof.
  intros Hne Hempty. apply Hne. unfold corrupt_words in Hempty.
  pose proof (concat_split_spaces (chars desc) "") as Hjoin.
  assert ("" +:+ String.string_of_list_ascii (chars desc) = desc) as Hdesc
    by apply String.string_of_list_ascii_of_string.
  rewrite Hdesc in Hjoin. rewrite <- Hjoin.
  destruct (rev (split_spaces (chars desc) "")) as [|first [|second others]]
    eqn:Hrev.
  - apply (f_equal (@rev string)) in Hrev. rewrite rev_involutive in Hrev.
    by rewrite Hrev.
  - cbn in Hempty. subst first.
    apply (f_equal (@rev string)) in Hrev. rewrite rev_involutive in Hrev.
    by rewrite Hrev.
  - change (String.concat " " (first :: second :: others))
      with (first +:+ " " +:+ String.concat " " (second :: others)) in Hempty.
    apply (f_equal chars) in Hempty. rewrite chars_app in Hempty.
    change (chars (" " +:+ String.concat " " (second :: others)))
      with (" "%char :: chars (String.concat " " (second :: others)))
      in Hempty.
    by destruct (chars first).
Qed.

Lemma fixed_operators_nonempty
  `{Host} (draws : nat -> Q) (method : string -> string) (desc : string) :
  method ∈ [corrupt_vowels; corrupt_mask draws; corrupt_truncate; corrupt_words] ->
  desc <> "" -> method desc <> "".
Proof.
  intros Hin Hne.
  assert (chars desc <> []) as Hchars.
  { intros Hnil. apply Hne, chars_inj. by rewrite Hnil. }
  rewrite !elem_of_cons, elem_of_nil in Hin.
  destruct Hin as [->|[->|[->|[->|[]]]]].
  - apply chars_nonempty. rewrite chars_corrupt_vowels.
    destruct (chars desc) as [|c cs]; [done|].
    rewrite fmap_cons.
    change (mjoin (blackout c :: (blackout <$> cs)))
      with (blackout c ++ mjoin (blackout <$> cs)).
    unfold blackout. by destruct (is_vowel c).
  - apply chars_nonempty. rewrite chars_corrupt_mask.
    intros Hnil. apply (f_equal length) in Hnil.
    rewrite length_imap in Hnil. by destruct (chars desc).
  - done.
  - by apply corrupt_words_nonempty.
Qed.

(** X25.  A description that any of the four fixed operators (every one but
    the shuffle, so a method draw of at least 1/5) has corrupted is again a
    non-empty string: the task stays a string-described task that a later
    run can corrupt once more. *)
Theorem corrupted_description_stays_nonempty
  `{Host} (e : tick_env) (tasks after : list obj) :
  corruptStaleTasks e tasks = Returned after true ->
  (1 # 5 <= rand_method e)%Q ->
  exists (i : nat) (task task' : obj) (desc' : string),
    random_element (rand_task e) (staleTasks e tasks) = Some (i, task)
    /\ after = <[i := task']> tasks
    /\ after !! i = Some task'
    /\ task' !! "description" = Some (VStr desc')
    /\ desc' <> ""
    /\ truthy (task' !! "description") = true.
Proof.
  intros Hrun Hmethod.
  apply corruptStaleTasks_Returned in Hrun
    as [[? _]|(_ & i & task & method & desc & Hpick & Hop & Hdesc & Hne & ->)];
    [done|].
  assert (method ∈ [corrupt_vowels; corrupt_mask (rand_op e);
                    corrupt_truncate; corrupt_words]) as Hfixed.
  { unfold random_element in Hop.
    set (k := Qfloor (rand_method e * inject_Z (Z.of_nat (length (corruptions (rand_op e)))))) in *.
    assert (1 <= k)%Z as Hk.
    { change 1%Z with (Qfloor 1). apply Qfloor_resp_le.
      change (inject_Z (Z.of_nat (length (corruptions (rand_op e)))))
        with (inject_Z 5).
      change (inject_Z 5) with 5%Q. lra. }
    destruct (Z.ltb_spec k 0) as [?|_]; [lia|].
    destruct (Z.to_nat k) as [|n] eqn:Hn; [lia|].
    eapply list_elem_of_lookup_2 with (i := n). exact Hop. }
  assert (method desc <> "") as Hnew
    by by apply (fixed_operators_nonempty (rand_op e)).
  pose proof Hpick as [Hlook _]%picked_is_stale.
  eexists i, task, _, (method desc).
  split; [done|]. split; [reflexivity|].
  split; [apply list_lookup_insert_eq; by eapply lookup_lt_Some|].
  assert (forall t : obj,
             (<["corrupted" := VBool true]>
                (<["description" := VStr (method desc)]> t)) !! "description"
             = Some (VStr (method desc))) as Hread
    by (intros t; by rewrite lookup_insert_ne, lookup_insert_eq).
  rewrite Hread. split; [done|]. split; [done|].
  cbn. apply negb_true_iff. by apply String.eqb_neq.
Qed.

Lemma corrupted_description_stays_nonempty_witness :
  exists (i : nat) (task' : obj) (desc' : string),
    corruptStaleTasks (host := sample_host) sample_tick store_doing
    = Returned (<[i := task']> store_doing) true
    /\ task' !! "description" = Some (VStr desc')
    /\ desc' <> "".
Proof.
  destruct (corrupted_description_stays_nonempty (H := sample_host)
              sample_tick store_doing
              (<[0%nat := <["corrupted" := VBool true]>
                   (<["description" := VStr "⚠️ CORRUPTED: hello world..."]>
                      (apply_patch (host := sample_host) 5000 move_to_doing
                         (Task (host := sample_host) sample_env
                               (VStr "A") (VStr "hello world"))))]> store_doing)
              eq_refl)
    as (i & task & task' & desc' & _ & Hstore & _ & Hdesc & Hne & _).
  - unfold Qle. cbn. lia.
  - exists i, task', desc'. split; [by rewrite <- Hstore|]. by split.
Defined.
